(** * SimpleServer: the session and accept-loop state machines of
      [src/ss/Server.cpp] and the echo handler of [test/main.cpp]

    The C++ code is embedded shallowly.  Byte buffers ([std::string],
    [std::string_view]) are lists of characters; a [string_view] into
    [reqBuffer_] is an offset into that buffer.  Every [asio::coroutine] is
    a small enumeration of its resumption points.  Asynchronous completions
    are inputs delivered by the environment; what the code does on the
    socket, on the handler and on the logger is recorded in a trace. *)

From Stdlib Require Import Ascii String NArith Lia.
From stdpp Require Import base list strings.
From Equations Require Import Equations.

Open Scope list_scope.

(** ** Bytes *)

Abbreviation bytes := (list ascii).

Definition NL : ascii := "010"%char.
Definition b (s : string) : bytes := list_ascii_of_string s.

(** ** Error codes *)

(** Modelled from the spec: [ss::error::SessionError] and [ss::error_code]
    are declared in [include/ss/Server.hpp], which is not part of the
    sources at hand.  A handler status is one of Success, PartialData or
    anything else; a transport status adds end-of-stream and cancellation
    ([asio::error::eof], [asio::error::operation_aborted]). *)
Inductive error_code : Type :=
  | Success
  | PartialData
  | Eof
  | OperationAborted
  | OtherError (value : nat).

Global Instance error_code_eq_dec : EqDecision error_code.
Proof. solve_decision. Defined.

(** [error_code::failed()] *)
Definition failed (err : error_code) : bool :=
  match err with Success => false | _ => true end.

(** [error_code::message()], kept symbolic *)
Definition message (err : error_code) : string :=
  match err with
  | Success => "Success"
  | PartialData => "PartialData"
  | Eof => "End of file"
  | OperationAborted => "Operation canceled"
  | OtherError _ => "error"
  end.

(** [std::exception], identified by [what()] *)
Record exception : Type := Exception { what : string }.

(** ** A fragment of [std::regex]

    Both patterns of the program are sequences of greedy quantified
    character classes, one of them behind a [^] assertion.  The matcher
    below is the backtracking one of ECMAScript restricted to that
    fragment: a quantifier takes the longest run first and gives characters
    back one at a time until the rest of the pattern matches. *)
Module Regex.

Inductive item : Type :=
  | Bol                                               (* ^ *)
  | Rep (cls : ascii -> bool) (lo : nat) (hi : option nat). (* [cls]{lo,hi} *)

(** length of the longest prefix of [s] inside the class *)
Fixpoint span (cls : ascii -> bool) (s : bytes) : nat :=
  match s with
  | c :: s' => if cls c then S (span cls s') else 0
  | [] => 0
  end.

(** tries [k], [k-1], ..., [lo] in this order *)
Fixpoint try_down {A} (f : nat -> option A) (lo k : nat) : option A :=
  if k <? lo then None
  else match f k with
       | Some r => Some r
       | None => match k with
                 | 0 => None
                 | S k' => try_down f lo k'
                 end
       end.

(** [exec full its at_begin s]: the pieces of [s] taken by each quantified
    class of [its], when [its] matches at the start of [s] ([full]: up to
    its end, as [regex_match] wants).  [at_begin] tells whether the
    position is the first of the whole input, where [^] holds. *)
Fixpoint exec (full : bool) (its : list item) (at_begin : bool) (s : bytes)
  : option (list bytes) :=
  match its with
  | [] => if full then match s with [] => Some [] | _ => None end else Some []
  | Bol :: its' => if at_begin then exec full its' at_begin s else None
  | Rep cls lo hi :: its' =>
      let run := span cls s in
      let kmax := match hi with Some h => Nat.min h run | None => run end in
      try_down (fun k => cons (take k s)
                           <$> exec full its' (at_begin && (k =? 0)) (drop k s))
               lo kmax
  end.

(** [std::regex_match]: the whole input *)
Definition regex_match (its : list item) (s : bytes) : option (list bytes) :=
  exec true its true s.

(** [std::regex_search]: the leftmost match; the result is the skipped
    prefix and the pieces of the match *)
Fixpoint search (its : list item) (at_begin : bool) (s : bytes)
  : option (bytes * list bytes) :=
  match exec false its at_begin s with
  | Some pieces => Some ([], pieces)
  | None => match s with
            | [] => None
            | c :: s' => (fun r => (c :: fst r, snd r)) <$> search its false s'
            end
  end.

Definition regex_search (its : list item) (s : bytes) : option (bytes * list bytes) :=
  search its true s.

(** [sub_match::str()] of the whole match *)
Definition str (pieces : list bytes) : bytes := concat pieces.

Definition is_digit (c : ascii) : bool :=
  let n := nat_of_ascii c in (48 <=? n) && (n <=? 57).
Definition is_char (x c : ascii) : bool := Ascii.eqb c x.
Definition not_char (x c : ascii) : bool := negb (Ascii.eqb c x).

End Regex.

(** ** The echo handler of [test/main.cpp] *)
Module Echo.
Import Regex.

(** [R"(^[^\n]*\n)"] *)
Definition lineReg : list item :=
  [Bol; Rep (not_char NL) 0 None; Rep (is_char NL) 1 (Some 1)].

(** [EchoReqHandler::handle].  [reqIgnoreLength] is the in-out parameter:
    its value at the call comes in, its value at the return goes out next
    to the status and to what was copied into the response inserter. *)
Definition handle (request : bytes) (reqIgnoreLength : nat)
  : error_code * bytes * nat :=
  match regex_search lineReg request with
  | None => (PartialData, [], reqIgnoreLength)
  | Some (_, pieces) =>
      let echo := str pieces in
      (Success, echo, length echo)
  end.

End Echo.

(** ** What the code does to the outside: the trace *)

Inductive level : Type := TRACE | DEBUG | INFO | WARNING | ERROR.

Inductive event : Type :=
  | Log (lvl : level) (msg : string)
  | AtSessionStart (remoteEndpoint : string) (err : error_code)
  | HandleCall (request : bytes) (err : error_code) (reqIgnoreLength : nat)
  | AtSessionClose
  | AsyncRead
  | AsyncWrite (data : bytes)
  | SocketCancel
  | SocketShutdown
  | SocketClose
  | AsyncAccept
  | AcceptorCancel.

Global Instance level_eq_dec : EqDecision level.
Proof. solve_decision. Defined.
Global Instance event_eq_dec : EqDecision event.
Proof. solve_decision. Defined.

(** ** The handler interface ([ss::AbstractRequestHandler])

    The class is declared in [include/ss/Server.hpp]; its three virtual
    functions are the ones [EchoReqHandler] overrides in [test/main.cpp].
    A handler is an object with state of its own; [H] is that state.
    [handle] gets the request view and the value of [reqIgnoreLength] at the
    call, and gives back the status, the bytes pushed into the response
    inserter and the value of [reqIgnoreLength] at the return. *)
Class AbstractRequestHandler (H : Type) : Type := {
  atSessionStart : H -> string -> H * error_code;
  handle : H -> bytes -> nat -> H * (error_code * bytes * nat);
  atSessionClose : H -> H
}.

(** [EchoReqHandler] has no fields. *)
Global Instance EchoReqHandler : AbstractRequestHandler unit := {
  atSessionStart _ _ := (tt, Success);
  handle _ request reqIgnoreLength := (tt, Echo.handle request reqIgnoreLength);
  atSessionClose _ := tt
}.

(** ** Sockets

    [is_open] is the state the code reads and changes.  The other fields are
    what the operating system answers on this socket: the peer address
    ([remote_endpoint()] throws [system_error] when it cannot be resolved)
    and the status of [cancel], [shutdown] and [close]. *)
Record Socket : Type := mkSocket {
  is_open : bool;
  remote_endpoint : exception + string;
  cancel_err : error_code;
  shutdown_err : error_code;
  close_err : error_code
}.

Definition set_open (o : bool) (k : Socket) : Socket :=
  {| is_open := o; remote_endpoint := remote_endpoint k;
     cancel_err := cancel_err k; shutdown_err := shutdown_err k;
     close_err := close_err k |}.

(** ** Session *)

(** the resumption points of the session coroutine: value 0, the yield of
    [async_read], the yield of [async_write], and -1 *)
Inductive session_coroutine : Type :=
  | CoroInitial | CoroRead | CoroWrite | CoroComplete.

Inductive io_op : Type := OpRead | OpWrite.

(** [pending] is the operation outstanding at the socket, whose completion
    handler holds [self]; [trace] is the history of the session. *)
Record Session (H : Type) : Type := mkSession {
  socket_ : Socket;
  coro : session_coroutine;
  pending : option io_op;
  reqHandler_ : H;
  reqBuffer_ : bytes;
  resBuffer_ : bytes;
  trace : list event
}.
Arguments mkSession {H}.
Arguments socket_ {H}.
Arguments coro {H}.
Arguments pending {H}.
Arguments reqHandler_ {H}.
Arguments reqBuffer_ {H}.
Arguments resBuffer_ {H}.
Arguments trace {H}.

Section SessionFields.
Context {H : Type}.
Implicit Type s : Session H.

Definition set_socket (k : Socket) s :=
  mkSession k (coro s) (pending s) (reqHandler_ s) (reqBuffer_ s) (resBuffer_ s) (trace s).
Definition set_coro (c : session_coroutine) s :=
  mkSession (socket_ s) c (pending s) (reqHandler_ s) (reqBuffer_ s) (resBuffer_ s) (trace s).
Definition set_pending (p : option io_op) s :=
  mkSession (socket_ s) (coro s) p (reqHandler_ s) (reqBuffer_ s) (resBuffer_ s) (trace s).
Definition set_reqHandler (h : H) s :=
  mkSession (socket_ s) (coro s) (pending s) h (reqBuffer_ s) (resBuffer_ s) (trace s).
Definition set_reqBuffer (q : bytes) s :=
  mkSession (socket_ s) (coro s) (pending s) (reqHandler_ s) q (resBuffer_ s) (trace s).
Definition set_resBuffer (r : bytes) s :=
  mkSession (socket_ s) (coro s) (pending s) (reqHandler_ s) (reqBuffer_ s) r (trace s).
Definition emit (e : event) s :=
  mkSession (socket_ s) (coro s) (pending s) (reqHandler_ s) (reqBuffer_ s) (resBuffer_ s)
            (trace s ++ [e]).

(** [LOG_ERROR(err.message())] under [if (err.failed())] *)
Definition log_if_failed (err : error_code) s :=
  if failed err then emit (Log ERROR (message err)) s else s.
End SessionFields.

(** how the inner [for (;;)] of the request handling is left *)
Inductive control : Type :=
  | Break      (* [break]: go on after the loop *)
  | Return.    (* [return] out of [operator()] *)

(** [reqIgnoreLength == 0 || reqIgnoreLength >= reqBufferView.size()] *)
Definition whole_view_dec (reqIgnoreLength size : nat)
  : {reqIgnoreLength = 0 \/ size <= reqIgnoreLength} + {0 < reqIgnoreLength < size}.
Proof.
  destruct (Nat.eq_dec reqIgnoreLength 0) as [->|Hn]; [left; left; reflexivity|].
  destruct (le_lt_dec size reqIgnoreLength); [left; right; assumption|right; lia].
Defined.

(** [size_t] has 64 bits *)
Definition size_t_modulus : N := (2 ^ 64)%N.

(** [reqBufferView.data() - reqBuffer_.data() + reqIgnoreLength], the count
    handed to [reqBuffer_.erase(0, count)]: the offset of the view is
    converted to [size_t] and the sum is taken there, so it wraps at
    [size_t_modulus].  The offset of a view is at most the size of a
    [std::string], which is below [size_t_modulus]; the lists of the model
    have no such limit, and for an offset beyond it, which the code cannot
    have, the sum is left as it is. *)
Definition erase_count (off reqIgnoreLength : nat) : nat :=
  if (N.of_nat off <? size_t_modulus)%N
  then N.to_nat ((N.of_nat off + N.of_nat reqIgnoreLength) mod size_t_modulus)
  else off + reqIgnoreLength.

Section SessionCode.
Context {H : Type} `{AbstractRequestHandler H}.
Implicit Type s : Session H.

(** [Session::Session]: the socket is moved in, both buffers are empty *)
Definition new_session (socket : Socket) (handler : H) : Session H :=
  mkSession socket CoroInitial None handler [] [] [Log TRACE "construct session"].

(** [Session::isOpen] *)
Definition isOpen s : bool := is_open (socket_ s).

(** [Session::close] *)
Definition close s : Session H :=
  if negb (is_open (socket_ s)) then emit (Log WARNING "session already closed") s
  else
    let s := emit (Log TRACE "close session") s in
    let s := emit SocketCancel s in
    log_if_failed (cancel_err (socket_ s)) s.

(** [Session::atClose] *)
Definition atClose s : Session H :=
  let s := emit (Log TRACE "at session close") s in
  let s := emit AtSessionClose (set_reqHandler (atSessionClose (reqHandler_ s)) s) in
  let s := emit SocketShutdown s in
  let s := log_if_failed (shutdown_err (socket_ s)) s in
  let s := emit SocketClose (set_socket (set_open false (socket_ s)) s) in
  log_if_failed (close_err (socket_ s)) s.

(** the first block of [Session::operator()], entered when [err.failed()] *)
Definition on_failed s (err : error_code) : Session H :=
  let s := match err with
           | Eof => emit (Log DEBUG "client close connection") s
           | OperationAborted => emit (Log DEBUG "session canceled") s
           | _ => emit (Log ERROR (message err)) s
           end in
  let s := atClose s in
  emit (Log DEBUG "end of session coroutine") s.

(** [yield asio::async_read(...)] *)
Definition yield_async_read s : Session H :=
  emit AsyncRead (set_pending (Some OpRead) (set_coro CoroRead s)).

(** [yield asio::async_write(...)] *)
Definition yield_async_write s : Session H :=
  emit (AsyncWrite (resBuffer_ s)) (set_pending (Some OpWrite) (set_coro CoroWrite s)).

(** the state after one call of [reqHandler_->handle] on the view that
    starts [off] bytes into [reqBuffer_]: the handler has moved on and its
    output stands at the end of [resBuffer_] *)
Definition handled s (off : nat) (h' : H) (err : error_code) (out : bytes)
           (reqIgnoreLength : nat) : Session H :=
  emit (HandleCall (drop off (reqBuffer_ s)) err reqIgnoreLength)
       (set_resBuffer (resBuffer_ s ++ out) (set_reqHandler h' s)).

(** The inner [for (;;)] of the request handling.  [reqBufferView] is
    [drop off reqBuffer_]: [off] is [reqBufferView.data() -
    reqBuffer_.data()].  On PartialData [erase(0, count)] takes [count]
    bytes, or all there are, off the front.  After an unexpected error the loop calls
    [operator()] with that error, which enters [on_failed], and returns;
    the coroutine, left without a new yield, is complete. *)
Equations? requestHandling (s : Session H) (off : nat) : Session H * control
  by wf (length (reqBuffer_ s) - off) lt :=
requestHandling s off with handle (reqHandler_ s) (drop off (reqBuffer_ s)) 0 := {
  | (h', (err, out, reqIgnoreLength)) with failed err := {
    | false with whole_view_dec reqIgnoreLength (length (drop off (reqBuffer_ s))) := {
      | left _ => (set_reqBuffer [] (handled s off h' err out reqIgnoreLength), Break)
      | right _ =>
          requestHandling (handled s off h' err out reqIgnoreLength) (off + reqIgnoreLength) }
    | true with decide (err = PartialData) := {
      | left _ =>
          let s1 := handled s off h' err out reqIgnoreLength in
          let s2 := set_reqBuffer (drop (erase_count off reqIgnoreLength) (reqBuffer_ s1)) s1 in
          (emit (Log WARNING "partial data in request: %1.3fKb") s2, Break)
      | right _ =>
          let s1 := handled s off h' err out reqIgnoreLength in
          (set_coro CoroComplete (on_failed s1 err), Return) } } }.
Proof.
  simpl. rewrite length_drop in *. lia.
Qed.

(** what follows the request handling: nothing to send, read again;
    otherwise write *)
Definition after_handling s : Session H :=
  match resBuffer_ s with
  | [] => yield_async_read s
  | _ => yield_async_write s
  end.

(** [Session::operator()] *)
Definition resume s (err : error_code) (transfered : nat) : Session H :=
  if failed err then on_failed s err
  else match coro s with
       | CoroInitial => yield_async_read s
       | CoroRead =>
           let s := emit (Log DEBUG "readed: %1.3fKb") s in
           match requestHandling s 0 with
           | (s, Break) => after_handling s
           | (s, Return) => s
           end
       | CoroWrite =>
           let s := emit (Log DEBUG "writed: %1.3fKb") s in
           yield_async_read (set_resBuffer [] s)
       | CoroComplete => s
       end.

(** [Session::start]; [inl e]: the exception [e] leaves the function *)
Definition start s : exception + Session H :=
  let s := emit (Log TRACE "start new session") s in
  match remote_endpoint (socket_ s) with
  | inl e => inl e
  | inr remoteEndpoint =>
      let '(h', err) := atSessionStart (reqHandler_ s) remoteEndpoint in
      let s := emit (AtSessionStart remoteEndpoint err) (set_reqHandler h' s) in
      if failed err then
        let s := emit (Log ERROR (message err)) s in
        inr (emit (Log WARNING "session doesn't start, because get handler error") s)
      else inr (resume s Success 0)
  end.

(** *** Completions

    [async_read] with [dynamic_buffer(reqBuffer_)] appends what it
    received to [reqBuffer_] and then calls the bound [operator()];
    [async_write] with [dynamic_buffer(resBuffer_)] takes what it sent off
    the front of [resBuffer_] and then calls it.  A completion arrives only
    for the operation that is outstanding. *)
Inductive session_input : Type :=
  | ReadDone (data : bytes) (err : error_code)
  | WriteDone (transfered : nat) (err : error_code)
  | CloseCall.

Definition session_step s (i : session_input) : option (Session H) :=
  match i, pending s with
  | ReadDone data err, Some OpRead =>
      Some (resume (set_reqBuffer (reqBuffer_ s ++ data) (set_pending None s))
                   err (length data))
  | WriteDone n err, Some OpWrite =>
      Some (resume (set_resBuffer (drop n (resBuffer_ s)) (set_pending None s)) err n)
  | CloseCall, _ => Some (close s)
  | _, _ => None
  end.

Fixpoint session_run s (inputs : list session_input) : option (Session H) :=
  match inputs with
  | [] => Some s
  | i :: inputs' => match session_step s i with
                    | Some s' => session_run s' inputs'
                    | None => None
                    end
  end.

End SessionCode.

Global Arguments requestHandling : simpl never.

(** the bytes handed to [async_write], in order *)
Fixpoint written (tr : list event) : bytes :=
  match tr with
  | AsyncWrite data :: tr' => data ++ written tr'
  | _ :: tr' => written tr'
  | [] => []
  end.

Definition good_socket : Socket :=
  mkSocket true (inr "127.0.0.1:50000"%string) Success Success Success.

Definition echo_session : Session unit := new_session good_socket tt.


(** ** The accept loop ([ServerImplStream]) *)

(** [ss::AbstractRequestHandlerFactory]: [F] is the state of the factory,
    [inl e] an exception leaving [makeRequestHandler] *)
Class AbstractRequestHandlerFactory (F H : Type) : Type := {
  makeRequestHandler : F -> F * (exception + H)
}.

Global Instance EchoReqHandlerFactory : AbstractRequestHandlerFactory unit unit := {
  makeRequestHandler _ := (tt, inr tt)
}.

(** value 0, the yield of [async_accept], and -1 *)
Inductive accept_coroutine : Type :=
  | AcceptInitial | AcceptYield | AcceptComplete.

(** The sessions are shared objects: [sessions_] holds pointers to them and
    so does the completion handler of each outstanding operation.  [heap]
    is the store of all session objects, a pointer is an index into it.
    [accepting] tells whether an [async_accept] is outstanding. *)
Record ServerImplStream (F H : Type) : Type := mkServer {
  accept_coro : accept_coroutine;
  accepting : bool;
  reqHandlerFactory_ : F;
  sessions_ : list nat;
  heap : list (Session H);
  server_trace : list event
}.
Arguments mkServer {F H}.
Arguments accept_coro {F H}.
Arguments accepting {F H}.
Arguments reqHandlerFactory_ {F H}.
Arguments sessions_ {F H}.
Arguments heap {F H}.
Arguments server_trace {F H}.

Section ServerCode.
Context {F H : Type} `{AbstractRequestHandler H} `{AbstractRequestHandlerFactory F H}.
Implicit Type srv : ServerImplStream F H.

Definition server_emit (e : event) srv :=
  mkServer (accept_coro srv) (accepting srv) (reqHandlerFactory_ srv)
           (sessions_ srv) (heap srv) (server_trace srv ++ [e]).
Definition set_sessions (l : list nat) srv :=
  mkServer (accept_coro srv) (accepting srv) (reqHandlerFactory_ srv)
           l (heap srv) (server_trace srv).
Definition set_heap (hp : list (Session H)) srv :=
  mkServer (accept_coro srv) (accepting srv) (reqHandlerFactory_ srv)
           (sessions_ srv) hp (server_trace srv).
Definition set_factory (f : F) srv :=
  mkServer (accept_coro srv) (accepting srv) f
           (sessions_ srv) (heap srv) (server_trace srv).

(** the acceptor is open, bound and listening; nothing is outstanding *)
Definition new_server (factory : F) : ServerImplStream F H :=
  mkServer AcceptInitial false factory [] [] [Log TRACE "construct sever"].

(** [session->isOpen()] through the pointer *)
Definition open_at srv (p : nat) : bool :=
  match heap srv !! p with
  | Some s => isOpen s
  | None => false
  end.

(** [yield acceptor_.async_accept(...)] *)
Definition yield_async_accept srv :=
  server_emit AsyncAccept
    (mkServer AcceptYield true (reqHandlerFactory_ srv) (sessions_ srv) (heap srv)
              (server_trace srv)).

(** The body of the [try] block for the accepted [socket]: the state at
    its end, or at the throw together with the exception.  A session whose
    [start] throws is owned by nobody and is destroyed. *)
Definition accept_try srv (socket : Socket) : ServerImplStream F H * option exception :=
  match remote_endpoint socket with
  | inl e => (srv, Some e)
  | inr _ =>
      let srv := server_emit (Log DEBUG "accept connection from: %1%") srv in
      let srv := set_sessions (filter (fun p => open_at srv p = true) (sessions_ srv)) srv in
      match makeRequestHandler (reqHandlerFactory_ srv) with
      | (f', inl e) => (set_factory f' srv, Some e)
      | (f', inr reqHandler) =>
          let srv := set_factory f' srv in
          match start (new_session socket reqHandler) with
          | inl e => (srv, Some e)
          | inr session =>
              let p := length (heap srv) in
              let srv := set_sessions (sessions_ srv ++ [p])
                           (set_heap (heap srv ++ [session]) srv) in
              (server_emit (Log DEBUG "sessions opened: %1%") srv, None)
          end
      end
  end.

(** [ServerImplStream::operator()] *)
Definition accept_resume srv (err : error_code) (socket : Socket) : ServerImplStream F H :=
  if failed err then
    let srv := match err with
               | OperationAborted => server_emit (Log DEBUG "accepting canceled") srv
               | _ => server_emit (Log ERROR (message err)) srv
               end in
    server_emit (Log DEBUG "break the server coroutine") srv
  else match accept_coro srv with
       | AcceptInitial => yield_async_accept srv
       | AcceptYield =>
           let srv := server_emit (Log DEBUG "accept new connection") srv in
           let srv := match accept_try srv socket with
                      | (srv, None) => srv
                      | (srv, Some e) => server_emit (Log ERROR (what e)) srv
                      end in
           yield_async_accept srv
       | AcceptComplete => srv
       end.

(** [startAccepting]; the socket passed at the first entry is not used *)
Definition startAccepting srv : ServerImplStream F H :=
  let srv := server_emit (Log TRACE "start accepting") srv in
  accept_resume srv Success (mkSocket false (inl (Exception EmptyString)) Success Success Success).

(** [stopAccepting] *)
Definition stopAccepting srv : ServerImplStream F H :=
  server_emit AcceptorCancel (server_emit (Log TRACE "stop accepting") srv).

(** [closeAllSessions].  [sessions_.clear()] drops the pointers of the live
    set.  A session with an operation outstanding lives on through the
    pointer its completion handler holds.  A session with nothing
    outstanding loses its last owner there and is destroyed: the heap keeps
    the state such an object had last, and what its destructor does (it
    closes the socket) is outside the model. *)
Definition closeAllSessions srv : ServerImplStream F H :=
  let srv := server_emit (Log TRACE "close all sessions") srv in
  let hp := fold_left (fun hp p =>
                         match hp !! p with
                         | Some s => if isOpen s then <[p := close s]> hp else hp
                         | None => hp
                         end) (sessions_ srv) (heap srv) in
  set_sessions [] (set_heap hp srv).

(** [Server::stop] *)
Definition stop srv : ServerImplStream F H := closeAllSessions (stopAccepting srv).

(** what the event loop delivers: the completion of the outstanding
    accept, the completion of the outstanding operation of one session,
    or the call of [Server::stop] *)
Inductive server_input : Type :=
  | AcceptDone (err : error_code) (socket : Socket)
  | SessionDone (p : nat) (i : session_input)
  | StopCall.

Definition server_step srv (i : server_input) : option (ServerImplStream F H) :=
  match i with
  | AcceptDone err socket =>
      if accepting srv then
        Some (accept_resume
                (mkServer (accept_coro srv) false (reqHandlerFactory_ srv)
                          (sessions_ srv) (heap srv) (server_trace srv))
                err socket)
      else None
  | SessionDone p i =>
      match i, heap srv !! p with
      | CloseCall, _ => None
      | _, Some s =>
          match session_step s i with
          | Some s' => Some (set_heap (<[p := s']> (heap srv)) srv)
          | None => None
          end
      | _, None => None
      end
  | StopCall => Some (stop srv)
  end.

End ServerCode.

(** ** The builder ([ServerBuilder]) *)
Module Builder.
Import Regex.

Inductive Protocol : Type := Tcp | Unix.

(** [R"(([^:]+):(\d{1,5}))"]; group 1 is the first piece, group 2 the third *)
Definition hostAndPortReg : list item :=
  [Rep (not_char ":") 1 None; Rep (is_char ":") 1 (Some 1); Rep is_digit 1 (Some 5)].

(** [std::stoi] on a string of decimal digits *)
Definition stoi (s : bytes) : N :=
  fold_left (fun acc c => 10 * acc + (N_of_ascii c - 48))%N s 0%N.

(** the conversion of the [int] argument to the [unsigned short] port of
    [tcp::endpoint] *)
Definition to_port (n : N) : N := (n mod 65536)%N.

Inductive outcome (A : Type) : Type :=
  | Built (a : A)
  | ThrowInvalidArgument (msg : string)
  | ThrowSystemError (e : exception).
Arguments Built {A}.
Arguments ThrowInvalidArgument {A}.
Arguments ThrowSystemError {A}.

Section Build.
(** Boost.Asio and the operating system: [ip::make_address] on a
    literal, and what opening, binding and listening on an endpoint
    answers ([Some e]: [system_error] is thrown by the constructor of
    [ServerImplStream]) *)
Context {address : Type}.
Variable make_address : bytes -> option address.

Inductive Endpoint : Type :=
  | TcpEndpoint (addr : address) (port : N)
  | UnixEndpoint (path : bytes).

Variable listen : Endpoint -> option exception.

Context {F H : Type} `{AbstractRequestHandler H} `{AbstractRequestHandlerFactory F H}.

(** [nullptr] is [None] *)
Record ServerBuilder : Type := mkBuilder {
  factory_ : option F;
  protocol_ : Protocol;
  endpoint_ : bytes
}.

Definition setRequestHandlerFactory (factory : option F) (bld : ServerBuilder) :=
  mkBuilder factory (protocol_ bld) (endpoint_ bld).
Definition setEndpoint (protocol : Protocol) (endpoint : bytes) (bld : ServerBuilder) :=
  mkBuilder (factory_ bld) protocol endpoint.

(** the constructor of [ServerImplStream] *)
Definition make_impl (endpoint : Endpoint) (factory : F)
  : outcome (Endpoint * ServerImplStream F H) :=
  match listen endpoint with
  | Some e => ThrowSystemError e
  | None => Built (endpoint, new_server factory)
  end.

(** [ServerBuilder::build] *)
Definition build (bld : ServerBuilder) : outcome (Endpoint * ServerImplStream F H) :=
  match factory_ bld with
  | None => ThrowInvalidArgument "invalid request handler factory"
  | Some factory =>
      match protocol_ bld with
      | Tcp =>
          match regex_match hostAndPortReg (endpoint_ bld) with
          | None => ThrowInvalidArgument "invalid host or port"
          | Some pieces =>
              let host := nth 0 pieces [] in
              let port := nth 2 pieces [] in
              match make_address host with
              | None => ThrowInvalidArgument "invalid address: %1%"
              | Some addr => make_impl (TcpEndpoint addr (to_port (stoi port))) factory
              end
          end
      | Unix => make_impl (UnixEndpoint (endpoint_ bld)) factory
      end
  end.
End Build.
Arguments TcpEndpoint {address}.
Arguments UnixEndpoint {address}.
Arguments mkBuilder {F}.
Arguments factory_ {F}.
Arguments protocol_ {F}.
Arguments endpoint_ {F}.

End Builder.

(** ** Vocabulary of the properties *)

(** what [Session::atClose] does on a socket, as events *)
Definition atClose_events (k : Socket) : list event :=
  [Log TRACE "at session close"; AtSessionClose; SocketShutdown]
  ++ (if failed (shutdown_err k) then [Log ERROR (message (shutdown_err k))] else [])
  ++ [SocketClose]
  ++ (if failed (close_err k) then [Log ERROR (message (close_err k))] else []).

(** what the error block of [Session::operator()] does, as events *)
Definition on_failed_events (k : Socket) (err : error_code) : list event :=
  [match err with
   | Eof => Log DEBUG "client close connection"
   | OperationAborted => Log DEBUG "session canceled"
   | _ => Log ERROR (message err)
   end]
  ++ atClose_events k ++ [Log DEBUG "end of session coroutine"].

(** events that touch neither the socket nor the session hooks *)
Definition quiet (e : event) : bool :=
  match e with
  | Log _ _ | HandleCall _ _ _ => true
  | _ => false
  end.

(** the events a read or a write is issued with *)
Definition is_io (e : event) : bool :=
  match e with
  | AsyncRead | AsyncWrite _ => true
  | _ => false
  end.

(** the life cycle of a session, read off its trace *)
Inductive lifecycle : Type := LStart | LClose | LShutdown | LSocketClose.

Definition lifecycle_of (e : event) : option lifecycle :=
  match e with
  | AtSessionStart _ _ => Some LStart
  | AtSessionClose => Some LClose
  | SocketShutdown => Some LShutdown
  | SocketClose => Some LSocketClose
  | _ => None
  end.

Definition lifecycle_trace (tr : list event) : list lifecycle := omap lifecycle_of tr.

(** the stages of a session *)
Section Stages.
Context {H : Type}.
Implicit Type s : Session H.

(** a session is either under way, with exactly one operation outstanding
    on an open socket, or over, with nothing outstanding on a closed one *)
Definition under_way s : Prop :=
  is_open (socket_ s) = true /\
  (pending s = Some OpRead /\ coro s = CoroRead \/
   pending s = Some OpWrite /\ coro s = CoroWrite) /\
  lifecycle_trace (trace s) = [LStart].

Definition over s : Prop :=
  is_open (socket_ s) = false /\ pending s = None /\
  lifecycle_trace (trace s) = [LStart; LClose; LShutdown; LSocketClose].

(** a session refused by [atSessionStart]: nothing outstanding, the socket
    as it was accepted, no read or write ever issued, no close sequence *)
Definition refused (socket : Socket) s : Prop :=
  socket_ s = socket /\ pending s = None /\ coro s = CoroInitial /\
  Forall (fun e => is_io e = false) (trace s) /\
  lifecycle_trace (trace s) = [LStart].

End Stages.

(** ** A second handler, for the paths the echo handler never takes

    It echoes lines like [EchoReqHandler], but refuses the session at
    [atSessionStart] when [refuse] is set and fails with an error of its own
    on a view that starts with [poison]. *)
Record PickyReqHandler : Type := mkPicky { refuse : bool; poison : ascii }.

Global Instance PickyReqHandler_handler : AbstractRequestHandler PickyReqHandler := {
  atSessionStart h _ := (h, if refuse h then OtherError 13 else Success);
  handle h request reqIgnoreLength :=
    match request with
    | c :: _ => if Ascii.eqb c (poison h) then (h, (OtherError 5, [], reqIgnoreLength))
                else (h, Echo.handle request reqIgnoreLength)
    | [] => (h, Echo.handle request reqIgnoreLength)
    end;
  atSessionClose h := h
}.

(** The life cycle asked of every accepted connection, in its weakest
    form: whatever the handler, a started session can go on to a state in
    which [atSessionStart], [atSessionClose], the shutdown and the close of
    the socket have each happened once, in this order. *)
Definition every_accepted_session_closes : Prop :=
  forall (H : Type) (hd : AbstractRequestHandler H) (socket : Socket) (h : H) ep s1,
    is_open socket = true -> remote_endpoint socket = inr ep ->
    start (new_session socket h) = inr s1 ->
    exists inputs s,
      session_run s1 inputs = Some s /\
      lifecycle_trace (trace s) = [LStart; LClose; LShutdown; LSocketClose].

(** a factory that hands out copies of a prototype *)
Global Instance PickyReqHandlerFactory
  : AbstractRequestHandlerFactory PickyReqHandler PickyReqHandler := {
  makeRequestHandler f := (f, inr f)
}.

(** ** Lines

    [split_lines v] cuts [v] behind its last newline: the complete lines,
    and the unfinished rest. *)
Fixpoint split_lines (v : bytes) : bytes * bytes :=
  match v with
  | [] => ([], [])
  | c :: v' =>
      let (l, r) := split_lines v' in
      if Ascii.eqb c NL then (c :: l, r)
      else match l with
           | [] => ([], c :: r)
           | _ => (c :: l, r)
           end
  end.

(** ** Endpoint strings

    [host_port_shape s host port]: [s] is [host], a colon and [port], with
    [host] not empty and free of colons and [port] one to five decimal
    digits. *)
Definition host_port_shape (s host port : bytes) : Prop :=
  s = host ++ ":"%char :: port /\
  host <> [] /\ Forall (fun c => c <> ":"%char) host /\
  1 <= length port <= 5 /\ Forall (fun c => Regex.is_digit c = true) port.

(** The check of the endpoint asked of [build] under Tcp: whatever Boost.Asio
    and the operating system answer, a server is built only from a string
    [host:port] whose port is a decimal number from 1 to 65535 and whose host
    is an address literal. *)
Definition build_checks_port_range : Prop :=
  forall (address : Type) (make_address : bytes -> option address)
         (listen : Builder.Endpoint -> option exception)
         (bld : Builder.ServerBuilder (F := unit)) impl,
    Builder.protocol_ bld = Builder.Tcp ->
    Builder.build (H := unit) make_address listen bld = Builder.Built impl ->
    exists host port,
      Builder.endpoint_ bld = host ++ ":"%char :: port /\
      Forall (fun c => Regex.is_digit c = true) port /\
      (1 <= Builder.stoi port <= 65535)%N /\
      is_Some (make_address host).

(** an address parser that knows the loopback literal only *)
Definition loopback_only (host : bytes) : option unit :=
  if decide (host = b "127.0.0.1") then Some tt else None.

(** ** Turns of the request handling loop

    [reaches s off s' off']: the loop entered in state [s] with its view
    [off] bytes into [reqBuffer_] comes, after calls of the handler that
    each returned Success and consumed a part of the view, to the turn in
    state [s'] with the view at [off']. *)
Inductive reaches {H : Type} `{AbstractRequestHandler H}
  : Session H -> nat -> Session H -> nat -> Prop :=
  | reaches_here s off : reaches s off s off
  | reaches_next s off h' out n s' off' :
      handle (reqHandler_ s) (drop off (reqBuffer_ s)) 0 = (h', (Success, out, n)) ->
      0 < n < length (drop off (reqBuffer_ s)) ->
      reaches (handled s off h' Success out n) (off + n) s' off' ->
      reaches s off s' off'.

(** ** A peer that sends chunks and takes every answer

    [deliver s data]: the outstanding read completes with [data]; if the
    session then writes, the write completes in full. *)
Section Peer.
Context {H : Type} `{AbstractRequestHandler H}.

Definition deliver (s : Session H) (data : bytes) : option (Session H) :=
  match session_step s (ReadDone data Success) with
  | Some s' =>
      match pending s' with
      | Some OpWrite => session_step s' (WriteDone (length (resBuffer_ s')) Success)
      | _ => Some s'
      end
  | None => None
  end.

Fixpoint feed (s : Session H) (chunks : list bytes) : option (Session H) :=
  match chunks with
  | [] => Some s
  | data :: chunks' =>
      match deliver s data with
      | Some s' => feed s' chunks'
      | None => None
      end
  end.

(** the bytes the peer gets back from a session started on [socket] with
    [handler] *)
Definition conversation (socket : Socket) (handler : H) (chunks : list bytes)
  : option bytes :=
  match start (new_session socket handler) with
  | inr s => (fun s' => written (trace s')) <$> feed s chunks
  | inl _ => None
  end.
End Peer.

(** ** Sessions and servers to run the code on *)

(** a socket whose peer is gone by the time its address is asked for *)
Definition unresolved_socket : Socket :=
  mkSocket true (inl (Exception "Transport endpoint is not connected"))
           Success Success Success.

(** the echo session after [start]: waiting for its first read *)
Definition echo_started : Session unit :=
  match start echo_session with
  | inr s => s
  | inl _ => echo_session
  end.

(** the echo session after its peer has closed the connection *)
Definition echo_closed : Session unit :=
  default echo_started (session_step echo_started (ReadDone [] Eof)).

(** a server of echo sessions, waiting for its first connection *)
Definition echo_server : ServerImplStream unit unit := startAccepting (new_server tt).

(** a server of [PickyReqHandler] sessions that has accepted one connection *)
Definition picky_server : ServerImplStream PickyReqHandler PickyReqHandler :=
  let srv := startAccepting (new_server (mkPicky false "!")) in
  default srv (server_step srv (AcceptDone Success good_socket)).

Definition picky_started : Session PickyReqHandler :=
  default (new_session good_socket (mkPicky false "!")) (heap picky_server !! 0).

(** The policy on partial data asked of every first pass of a session: if
    the handler reports PartialData in it, the session keeps the unconsumed
    tail, waits for the next read and has written nothing. *)
Definition partial_data_never_writes : Prop :=
  forall (H : Type) (hd : AbstractRequestHandler H) (socket : Socket) (h : H)
         (s0 s' : Session H) data view n,
    start (new_session socket h) = inr s0 ->
    session_step s0 (ReadDone data Success) = Some s' ->
    In (HandleCall view PartialData n) (trace s') ->
    reqBuffer_ s' = drop n view /\ pending s' = Some OpRead /\ written (trace s') = [].

(** ** Reads, writes and runs *)

(** the reads and writes a session issued, in order *)
Definition io_kind (e : event) : option io_op :=
  match e with
  | AsyncRead => Some OpRead
  | AsyncWrite _ => Some OpWrite
  | _ => None
  end.

Definition io_events (tr : list event) : list io_op := omap io_kind tr.

(** events that are neither a read nor a write *)
Definition silent (evs : list event) : Prop := Forall (fun e => io_kind e = None) evs.

(** every write comes directly behind a read *)
Definition writes_follow_reads (l : list io_op) : Prop :=
  forall pre post, l = pre ++ OpWrite :: post -> exists pre', pre = pre' ++ [OpRead].

(** no write was issued with nothing to send *)
Definition nonempty_write (e : event) : Prop :=
  match e with
  | AsyncWrite data => data <> []
  | _ => True
  end.

(** the calls of the handler among some events *)
Definition is_handle_call (e : event) : bool :=
  match e with
  | HandleCall _ _ _ => true
  | _ => false
  end.

Definition handle_calls (evs : list event) : nat :=
  length (List.filter is_handle_call evs).

(** the bytes the reads of a run brought in *)
Fixpoint received (inputs : list session_input) : bytes :=
  match inputs with
  | ReadDone data _ :: inputs' => data ++ received inputs'
  | _ :: inputs' => received inputs'
  | [] => []
  end.

(** A session keeps to the order of its operations: writes follow reads,
    no write is empty, nothing is staged while a read is outstanding, and
    something is while a write is. *)
Definition disciplined {H : Type} (s : Session H) : Prop :=
  writes_follow_reads (io_events (trace s)) /\
  Forall nonempty_write (trace s) /\
  (pending s = Some OpRead ->
     coro s = CoroRead /\ resBuffer_ s = [] /\ last (io_events (trace s)) = Some OpRead) /\
  (pending s = Some OpWrite -> coro s = CoroWrite /\ resBuffer_ s <> []).

(** what [closeAllSessions] does to one session *)
Definition close_if_open {H : Type} (s : Session H) : Session H :=
  if isOpen s then close s else s.

(** the loop of [closeAllSessions] over the live set *)
Definition close_each {H : Type} (l : list nat) (hp : list (Session H))
  : list (Session H) :=
  fold_left (fun hp p =>
               match hp !! p with
               | Some s => if isOpen s then <[p := close s]> hp else hp
               | None => hp
               end) l hp.

Section ServerRuns.
Context {F H : Type} `{AbstractRequestHandler H} `{AbstractRequestHandlerFactory F H}.

Fixpoint server_run (srv : ServerImplStream F H) (inputs : list server_input)
  : option (ServerImplStream F H) :=
  match inputs with
  | [] => Some srv
  | i :: inputs' => match server_step srv i with
                    | Some srv' => server_run srv' inputs'
                    | None => None
                    end
  end.

(** [Server::asyncRun] on a server fresh from [build] *)
Definition asyncRun (factory : F) : ServerImplStream F H :=
  startAccepting (new_server factory).

(** the pointers of [sessions_] point into the heap, each at most once *)
Definition live_set_ok (srv : ServerImplStream F H) : Prop :=
  NoDup (sessions_ srv) /\ Forall (fun p => p < length (heap srv)) (sessions_ srv).

(** a session is in one of its three stages *)
Definition staged (s : Session H) : Prop :=
  under_way s \/ over s \/ exists socket, is_open socket = true /\ refused socket s.
End ServerRuns.

(** a successful accept hands over an open socket *)
Definition accepted_open (i : server_input) : Prop :=
  match i with
  | AcceptDone Success socket => is_open socket = true
  | _ => True
  end.

(** * Properties *)

(** ** The regular expressions *)
Module RegexFacts.
Import Regex.

Lemma try_down_hit {A} (f : nat -> option A) lo k r :
  lo <= k -> f k = Some r -> try_down f lo k = Some r.
Proof.
  intros Hlo Hf. destruct k; simpl.
  - destruct lo; [|lia]. simpl. now rewrite Hf.
  - destruct (Nat.ltb_spec (S k) lo); [lia|]. now rewrite Hf.
Qed.

Lemma try_down_miss {A} (f : nat -> option A) lo k :
  (forall j, lo <= j <= k -> f j = None) -> try_down f lo k = None.
Proof.
  induction k as [|k IH]; intros Hf; simpl.
  - destruct lo; simpl; [|reflexivity]. now rewrite Hf by lia.
  - destruct (Nat.ltb_spec (S k) lo); [reflexivity|].
    rewrite Hf by lia. apply IH. intros j Hj. apply Hf. lia.
Qed.

Lemma try_down_some {A} (f : nat -> option A) lo k r :
  try_down f lo k = Some r -> exists j, lo <= j <= k /\ f j = Some r.
Proof.
  induction k as [|k IH]; simpl.
  - destruct (Nat.ltb_spec 0 lo); [discriminate|].
    destruct (f 0) eqn:E; [|discriminate]. intros [= ->]. exists 0. split; [lia|assumption].
  - destruct (Nat.ltb_spec (S k) lo); [discriminate|].
    destruct (f (S k)) eqn:E.
    + intros [= ->]. exists (S k). split; [lia|assumption].
    + intros Hk. destruct (IH Hk) as (j & Hj & Hfj). exists j. split; [lia|assumption].
Qed.

Lemma span_le cls s : span cls s <= length s.
Proof. induction s as [|c s IH]; simpl; [lia|]. destruct (cls c); simpl; lia. Qed.

(** inside the run every character is in the class *)
Lemma span_inside cls s j :
  j < span cls s -> exists c t, drop j s = c :: t /\ cls c = true.
Proof.
  revert j. induction s as [|c s IH]; simpl; intros j Hj; [lia|].
  destruct (cls c) eqn:E; [|lia].
  destruct j as [|j]; simpl; [eauto|]. apply IH. lia.
Qed.

(** the run ends at the end of the input or at a character outside *)
Lemma span_stop cls s :
  drop (span cls s) s = [] \/
  exists c t, drop (span cls s) s = c :: t /\ cls c = false.
Proof.
  induction s as [|c s IH]; simpl; [now left|].
  destruct (cls c) eqn:E; simpl; [exact IH|]. right. eauto.
Qed.

Lemma span_all cls s : Forall (fun c => cls c = true) (take (span cls s) s).
Proof.
  induction s as [|c s IH]; simpl; [constructor|].
  destruct (cls c) eqn:E; simpl; constructor; assumption.
Qed.

Lemma span_app_all cls s t :
  Forall (fun c => cls c = true) s -> span cls (s ++ t) = length s + span cls t.
Proof.
  induction 1 as [|c s Hc _ IH]; simpl; [reflexivity|]. now rewrite Hc, IH.
Qed.

(** a single character [x]: the class [x] taken exactly once *)
Lemma exec_one_char full at_begin x s :
  exec full [Rep (is_char x) 1 (Some 1)] at_begin s =
  match s with
  | c :: t => if Ascii.eqb c x
              then (if full then match t with [] => Some [[c]] | _ => None end
                    else Some [[c]])
              else None
  | [] => None
  end.
Proof.
  destruct s as [|c t]; simpl; [reflexivity|].
  unfold is_char. destruct (Ascii.eqb c x); simpl; [|reflexivity].
  destruct full; [|reflexivity]. rewrite drop_0. destruct t; reflexivity.
Qed.

End RegexFacts.

(** ** The echo handler *)
Module EchoFacts.
Import Regex RegexFacts.

Lemma search_bol_false its s : search (Bol :: its) false s = None.
Proof. induction s as [|c s IH]; simpl; [reflexivity|]. now rewrite IH. Qed.

Lemma take_S_drop (s : bytes) k c t : drop k s = c :: t -> take (S k) s = take k s ++ [c].
Proof.
  revert k. induction s as [|a s IH]; intros [|k]; simpl; try discriminate.
  - now intros [= -> _].
  - intros Hd. now rewrite (IH k Hd).
Qed.

Lemma not_char_false x c : not_char x c = false -> c = x.
Proof.
  unfold not_char. destruct (Ascii.eqb_spec c x); [auto|discriminate].
Qed.

(** the pieces [lineReg] takes at the start of the input *)
Lemma exec_lineReg s :
  exec false Echo.lineReg true s =
  let k := span (not_char NL) s in
  if k <? length s then Some [take k s; [NL]] else None.
Proof.
  cbv zeta. unfold Echo.lineReg.
  change (exec false [Bol; Rep (not_char NL) 0 None; Rep (is_char NL) 1 (Some 1)] true s)
    with (try_down
            (fun k => cons (take k s)
               <$> exec false [Rep (is_char NL) 1 (Some 1)] (true && (k =? 0)) (drop k s))
            0 (span (not_char NL) s)).
  destruct (span_stop (not_char NL) s) as [Hend | (c & t & Hd & Hc)].
  - assert (Hlen : length s <= span (not_char NL) s).
    { apply (f_equal (@length ascii)) in Hend. rewrite length_drop in Hend.
      simpl in Hend. lia. }
    destruct (Nat.ltb_spec (span (not_char NL) s) (length s)); [lia|].
    apply try_down_miss. intros j [_ Hj]. rewrite exec_one_char.
    destruct (Nat.eq_dec j (span (not_char NL) s)) as [->|Hne].
    + now rewrite Hend.
    + destruct (span_inside (not_char NL) s j) as (a & u & -> & Ha); [lia|].
      unfold not_char in Ha. now destruct (Ascii.eqb a NL).
  - assert (Hlen : span (not_char NL) s < length s).
    { apply (f_equal (@length ascii)) in Hd. rewrite length_drop in Hd.
      simpl in Hd. lia. }
    destruct (Nat.ltb_spec (span (not_char NL) s) (length s)); [|lia].
    apply try_down_hit; [lia|]. rewrite exec_one_char, Hd.
    apply not_char_false in Hc. subst c. now rewrite Ascii.eqb_refl.
Qed.

(** [EchoReqHandler::handle], in closed form: the first line with its
    newline when there is one *)
Lemma handle_spec request n0 :
  Echo.handle request n0 =
  let k := span (not_char NL) request in
  if k <? length request then (Success, take (S k) request, S k)
  else (PartialData, [], n0).
Proof.
  cbv zeta. unfold Echo.handle, regex_search.
  assert (Hs : search Echo.lineReg true request =
               (fun pieces => ([], pieces)) <$> exec false Echo.lineReg true request).
  { destruct request as [|c s]; cbn [search]; destruct (exec _ _ _ _); try reflexivity.
    unfold Echo.lineReg. now rewrite search_bol_false. }
  rewrite Hs, exec_lineReg. cbv zeta.
  destruct (Nat.ltb_spec (span (not_char NL) request) (length request)) as [Hlt|Hge];
    [|reflexivity].
  simpl. unfold str. simpl.
  destruct (span_stop (not_char NL) request) as [Hend | (c & t & Hd & Hc)].
  - apply (f_equal (@length ascii)) in Hend. rewrite length_drop in Hend. simpl in Hend. lia.
  - apply not_char_false in Hc. subst c.
    rewrite (take_S_drop _ _ _ _ Hd). rewrite length_app, length_take. simpl.
    replace (span (not_char NL) request `min` length request + 1)
      with (S (span (not_char NL) request)) by lia.
    reflexivity.
Qed.

End EchoFacts.

(** C6: [EchoReqHandler::handle] on the view "hello\n" returns Success,
    pushes exactly "hello\n" into the response inserter and sets
    [reqIgnoreLength] to 6; and on every view, called as the session calls
    it (with [reqIgnoreLength] at 0), the value it leaves in
    [reqIgnoreLength] is at most the size of the view, what it pushes on
    success being those first bytes of the view. *)
Theorem echo_handle_hello_and_bound :
  Echo.handle (b "hello" ++ [NL]) 0 = (Success, b "hello" ++ [NL], 6) /\
  forall request : bytes,
    let '(err, out, reqIgnoreLength) := Echo.handle request 0 in
    reqIgnoreLength <= length request /\
    (err = Success -> out = take reqIgnoreLength request) /\
    (err = Success \/ err = PartialData /\ out = [] /\ reqIgnoreLength = 0).
Proof.
  split; [reflexivity|].
  intros request. rewrite EchoFacts.handle_spec. cbv zeta.
  destruct (Nat.ltb_spec (Regex.span (Regex.not_char NL) request) (length request)) as [Hlt|Hge].
  - split; [lia|]. split; [reflexivity|now left].
  - split; [lia|]. split; [discriminate|]. right. auto.
Qed.

(** unfolds the field updates of a session, innermost first *)
Ltac session_fields :=
  cbv [emit set_socket set_coro set_pending set_reqHandler set_reqBuffer set_resBuffer
       handled yield_async_read yield_async_write
       socket_ coro pending reqHandler_ reqBuffer_ resBuffer_ trace].

(** ** The request handling loop *)
Section LoopFacts.
Context {H : Type} `{AbstractRequestHandler H}.
Implicit Type s : Session H.

(** without overflow the count is the plain sum *)
Lemma erase_count_exact off n :
  (N.of_nat (off + n) < size_t_modulus)%N -> erase_count off n = off + n.
Proof.
  intros Hlt. unfold erase_count.
  destruct (N.ltb_spec (N.of_nat off) size_t_modulus) as [_|Hge]; [|lia].
  rewrite <- Nat2N.inj_add, N.mod_small by exact Hlt. apply Nat2N.id.
Qed.

Lemma erase_count_0 off : erase_count off 0 = off.
Proof.
  unfold erase_count.
  destruct (N.ltb_spec (N.of_nat off) size_t_modulus) as [Hlt|Hge]; [|lia].
  rewrite N.add_0_r, N.mod_small by exact Hlt. apply Nat2N.id.
Qed.

(** with an offset the code can have, it is the sum modulo [size_t_modulus] *)
Lemma erase_count_wraps off n :
  (N.of_nat off < size_t_modulus)%N ->
  N.of_nat (erase_count off n) = (N.of_nat (off + n) mod size_t_modulus)%N.
Proof.
  intros Hlt. unfold erase_count.
  destruct (N.ltb_spec (N.of_nat off) size_t_modulus) as [_|Hge]; [|lia].
  now rewrite N2Nat.id, Nat2N.inj_add.
Qed.

(** a handler that reports [SIZE_MAX] with PartialData: one byte less than
    the offset is erased *)
Lemma erase_count_size_max off :
  1 <= off -> (N.of_nat off < size_t_modulus)%N ->
  erase_count off (N.to_nat (size_t_modulus - 1)) = off - 1.
Proof.
  intros Hpos Hlt. apply Nat2N.inj. rewrite (erase_count_wraps _ _ Hlt).
  rewrite Nat2N.inj_add, N2Nat.id.
  replace (N.of_nat off + (size_t_modulus - 1))%N
    with (N.of_nat (off - 1) + 1 * size_t_modulus)%N by (unfold size_t_modulus in *; lia).
  rewrite N.Div0.mod_add. apply N.mod_small. lia.
Qed.

(** one turn of the loop *)
Lemma requestHandling_turn s off :
  requestHandling s off =
  let '(h', (err, out, n)) := handle (reqHandler_ s) (drop off (reqBuffer_ s)) 0 in
  let s1 := handled s off h' err out n in
  if failed err then
    if decide (err = PartialData) then
      (emit (Log WARNING "partial data in request: %1.3fKb")
            (set_reqBuffer (drop (erase_count off n) (reqBuffer_ s1)) s1), Break)
    else (set_coro CoroComplete (on_failed s1 err), Return)
  else
    if whole_view_dec n (length (drop off (reqBuffer_ s))) then (set_reqBuffer [] s1, Break)
    else requestHandling s1 (off + n).
Proof.
  simp requestHandling.
  destruct (handle (reqHandler_ s) (drop off (reqBuffer_ s)) 0) as [h' [[err out] n]].
  simpl. destruct (failed err); simpl.
  - destruct (decide (err = PartialData)); reflexivity.
  - destruct (whole_view_dec n (length (drop off (reqBuffer_ s)))); reflexivity.
Qed.

(** the turns on the way do not change what the loop will answer *)
Lemma reaches_same_result s off s' off' :
  reaches s off s' off' -> requestHandling s off = requestHandling s' off'.
Proof.
  induction 1 as [|s off h' out n s' off' Hh Hn _ IH]; [reflexivity|].
  rewrite requestHandling_turn, Hh. cbv zeta. simpl.
  destruct (whole_view_dec n (length (drop off (reqBuffer_ s)))); [lia|exact IH].
Qed.

(** nor anything of the session but the handler, the staged output and the
    trace, which grows by calls of the handler *)
Lemma reaches_frame s off s' off' :
  reaches s off s' off' ->
  socket_ s' = socket_ s /\ pending s' = pending s /\ reqBuffer_ s' = reqBuffer_ s /\
  exists calls,
    Forall (fun e => quiet e = true) calls /\ trace s' = trace s ++ calls.
Proof.
  induction 1 as [s off|s off h' out n s' off' Hh Hn _ IH].
  - repeat split. exists []. split; [constructor|now rewrite app_nil_r].
  - destruct IH as (Hs & Hp & Hq & calls & Hc & Ht). simpl in *.
    repeat split; auto.
    exists (HandleCall (drop off (reqBuffer_ s)) Success n :: calls).
    split; [constructor; [reflexivity|exact Hc]|]. rewrite Ht. now rewrite <- app_assoc.
Qed.

End LoopFacts.

(** ** Sessions *)
Section SessionFacts.
Context {H : Type} `{AbstractRequestHandler H}.
Implicit Type s : Session H.

Lemma atClose_closed_form s :
  atClose s =
  mkSession (set_open false (socket_ s)) (coro s) (pending s)
            (atSessionClose (reqHandler_ s)) (reqBuffer_ s) (resBuffer_ s)
            (trace s ++ atClose_events (socket_ s)).
Proof.
  destruct s as [[o re ce sh cl] c p h q r tr].
  destruct sh, cl; cbv -[app atSessionClose]; rewrite <- ?app_assoc; reflexivity.
Qed.

Lemma on_failed_closed_form s err :
  on_failed s err =
  mkSession (set_open false (socket_ s)) (coro s) (pending s)
            (atSessionClose (reqHandler_ s)) (reqBuffer_ s) (resBuffer_ s)
            (trace s ++ on_failed_events (socket_ s) err).
Proof.
  destruct s as [[o re ce sh cl] c p h q r tr].
  destruct err, sh, cl; cbv -[app atSessionClose]; rewrite <- ?app_assoc; reflexivity.
Qed.

Lemma quiet_on_failed_events k err : written (on_failed_events k err) = [].
Proof.
  unfold on_failed_events, atClose_events.
  destruct err, (failed (shutdown_err k)), (failed (close_err k)); reflexivity.
Qed.

Lemma written_app tr1 tr2 : written (tr1 ++ tr2) = written tr1 ++ written tr2.
Proof.
  induction tr1 as [|e tr1 IH]; simpl; [reflexivity|].
  destruct e; simpl; rewrite ?IH, <- ?app_assoc; reflexivity.
Qed.

Lemma written_quiet tr : Forall (fun e => quiet e = true) tr -> written tr = [].
Proof.
  induction 1 as [|e tr He _ IH]; simpl; [reflexivity|].
  destruct e; simpl in *; try discriminate; assumption.
Qed.

(** What a whole run of the loop does.  The events of the loop are calls
    of the handler and log lines.  Left by [break], the session keeps its
    socket, its coroutine state and its outstanding operation; left by
    [return], the last call of the handler gave a status that is neither
    Success nor PartialData, and the events of the error block follow. *)
Lemma requestHandling_result s off :
  exists calls more,
    Forall (fun e => quiet e = true) calls /\
    pending (requestHandling s off).1 = pending s /\
    resBuffer_ (requestHandling s off).1 = resBuffer_ s ++ more /\
    match (requestHandling s off).2 with
    | Break =>
        trace (requestHandling s off).1 = trace s ++ calls /\
        socket_ (requestHandling s off).1 = socket_ s /\
        coro (requestHandling s off).1 = coro s
    | Return =>
        exists view err n,
          failed err = true /\ err <> PartialData /\
          trace (requestHandling s off).1 =
            trace s ++ calls ++ [HandleCall view err n] ++ on_failed_events (socket_ s) err /\
          socket_ (requestHandling s off).1 = set_open false (socket_ s) /\
          coro (requestHandling s off).1 = CoroComplete
    end.
Proof.
  remember (length (reqBuffer_ s) - off) as m eqn:Hm. revert s off Hm.
  induction m as [m IH] using lt_wf_ind. intros s off Hm.
  rewrite requestHandling_turn.
  destruct (handle (reqHandler_ s) (drop off (reqBuffer_ s)) 0) as [h' [[err out] n]].
  cbv zeta. destruct (failed err) eqn:Hf.
  - destruct (decide (err = PartialData)) as [->|Hne].
    + exists [HandleCall (drop off (reqBuffer_ s)) PartialData n;
              Log WARNING "partial data in request: %1.3fKb"], out.
      simpl. repeat split; auto. now rewrite <- app_assoc.
    + exists [], out. rewrite on_failed_closed_form. simpl.
      repeat split; auto.
      exists (drop off (reqBuffer_ s)), err, n. repeat split; auto.
      now rewrite <- app_assoc.
  - destruct (whole_view_dec n (length (drop off (reqBuffer_ s)))) as [Hw|Hadv].
    + exists [HandleCall (drop off (reqBuffer_ s)) err n], out. simpl.
      repeat split; auto.
    + rewrite length_drop in Hadv.
      destruct (IH (length (reqBuffer_ s) - (off + n)) ltac:(lia)
                   (handled s off h' err out n) (off + n) eq_refl)
        as (calls & more & Hq & Hp & Hr & Hc).
      exists (HandleCall (drop off (reqBuffer_ s)) err n :: calls), (out ++ more).
      split; [constructor; [reflexivity|assumption]|].
      split; [exact Hp|]. split; [rewrite Hr; simpl; now rewrite <- app_assoc|].
      destruct (requestHandling (handled s off h' err out n) (off + n)).2.
      * destruct Hc as (Ht & Hs & Hco). simpl in *.
        repeat split; auto. rewrite Ht. now rewrite <- app_assoc.
      * destruct Hc as (view & e & k & He & Hne & Ht & Hs & Hco).
        exists view, e, k. simpl in *. repeat split; auto.
        rewrite Ht. now rewrite <- !app_assoc.
Qed.

End SessionFacts.

Section LoopPolicy.
Context {H : Type} `{AbstractRequestHandler H}.
Implicit Type s : Session H.

(** the first call of the handler in a run of the loop, and where its
    output goes *)
Lemma requestHandling_first_call s off h' err out n :
  handle (reqHandler_ s) (drop off (reqBuffer_ s)) 0 = (h', (err, out, n)) ->
  exists evs more,
    trace (requestHandling s off).1 =
      trace s ++ [HandleCall (drop off (reqBuffer_ s)) err n] ++ evs /\
    resBuffer_ (requestHandling s off).1 = resBuffer_ s ++ out ++ more.
Proof.
  intros Hh. rewrite requestHandling_turn, Hh. cbv zeta.
  destruct (failed err) eqn:Hf.
  - destruct (decide (err = PartialData)).
    + exists [Log WARNING "partial data in request: %1.3fKb"], []. simpl.
      rewrite <- app_assoc, app_nil_r. auto.
    + exists (on_failed_events (socket_ s) err), []. rewrite on_failed_closed_form. simpl.
      rewrite <- app_assoc, app_nil_r. auto.
  - destruct (whole_view_dec n (length (drop off (reqBuffer_ s)))).
    + exists [], []. simpl. rewrite app_nil_r. auto.
    + destruct (requestHandling_result (handled s off h' err out n) (off + n))
        as (calls & more & _ & _ & Hr & Hc).
      rewrite Hr. simpl. rewrite <- app_assoc.
      destruct (requestHandling (handled s off h' err out n) (off + n)).2.
      * destruct Hc as (-> & _). simpl. rewrite <- app_assoc. eauto.
      * destruct Hc as (view & e & k & _ & _ & -> & _). simpl.
        rewrite <- app_assoc. eauto.
Qed.

(** C2: the policy of the loop on success.  If [handle] returns Success
    with [reqIgnoreLength] 0 or at least the size of the view, the whole of
    [reqBuffer_] is cleared and the loop is left by [break].  If it returns
    Success with [0 < reqIgnoreLength < size], the loop goes on with the
    view advanced by exactly [reqIgnoreLength]: the handler is called
    again, at once, on that view, and what the second call pushes stands
    in [resBuffer_] right behind what the first one pushed. *)
Theorem requestHandling_success_policy s off h' out n :
  handle (reqHandler_ s) (drop off (reqBuffer_ s)) 0 = (h', (Success, out, n)) ->
  let view := drop off (reqBuffer_ s) in
  let s1 := handled s off h' Success out n in
  (n = 0 \/ length view <= n ->
     requestHandling s off = (set_reqBuffer [] s1, Break) /\
     reqBuffer_ (requestHandling s off).1 = [] /\
     resBuffer_ (requestHandling s off).1 = resBuffer_ s ++ out) /\
  (0 < n < length view ->
     requestHandling s off = requestHandling s1 (off + n) /\
     forall h'' err2 out2 n2,
       handle h' (drop n view) 0 = (h'', (err2, out2, n2)) ->
       exists evs more,
         trace (requestHandling s off).1 =
           trace s ++ [HandleCall view Success n; HandleCall (drop n view) err2 n2] ++ evs /\
         resBuffer_ (requestHandling s off).1 = resBuffer_ s ++ out ++ out2 ++ more).
Proof.
  intros Hh view s1. subst view.
  assert (Hturn := requestHandling_turn s off). rewrite Hh in Hturn. cbv zeta in Hturn.
  simpl in Hturn. fold s1 in Hturn.
  destruct (whole_view_dec n (length (drop off (reqBuffer_ s)))) as [Hw|Hadv].
  - split; [|lia]. intros _. rewrite Hturn. auto.
  - split; [lia|]. intros _. split; [exact Hturn|].
    intros h'' err2 out2 n2 Hh2. rewrite Hturn.
    destruct (requestHandling_first_call s1 (off + n) h'' err2 out2 n2)
      as (evs & more & Ht & Hr).
    { subst s1. simpl. rewrite <- drop_drop. exact Hh2. }
    exists evs, more. rewrite Ht, Hr. subst s1. simpl.
    rewrite <- !app_assoc, drop_drop. auto.
Qed.

(** C1, as the code has it: when [handle] returns PartialData the loop
    erases from the front of [reqBuffer_] as many bytes as the offset of the
    view and the [reqIgnoreLength] the handler reported add up to in
    [size_t], keeps the rest, and is left by [break].  When the sum does not
    overflow these are the bytes in front of the view together with the
    [reqIgnoreLength] bytes reported; when it does, the count is the sum
    modulo [size_t_modulus].  What follows depends on [resBuffer_] alone: when
    nothing is staged the session reads again and nothing is written;
    when output is staged (by earlier calls of the same pass, or by this
    call) it is written first; and this is the state the session is in
    after the read whose pass came to that call.  The echo handler on
    "hel" stages nothing: no output, the 3 bytes stay in [reqBuffer_], a
    read is outstanding. *)
Theorem partial_data_keeps_tail s off h' out n :
  handle (reqHandler_ s) (drop off (reqBuffer_ s)) 0 = (h', (PartialData, out, n)) ->
  let s1 := emit (Log WARNING "partial data in request: %1.3fKb")
              (set_reqBuffer (drop (erase_count off n) (reqBuffer_ s))
                 (handled s off h' PartialData out n)) in
  requestHandling s off = (s1, Break) /\
  reqBuffer_ s1 = drop (erase_count off n) (reqBuffer_ s) /\
  ((N.of_nat (off + n) < size_t_modulus)%N ->
     reqBuffer_ s1 = drop (off + n) (reqBuffer_ s)) /\
  ((N.of_nat off < size_t_modulus)%N ->
     N.of_nat (erase_count off n) = (N.of_nat (off + n) mod size_t_modulus)%N) /\
  resBuffer_ s1 = resBuffer_ s ++ out /\
  (resBuffer_ s1 = [] ->
     after_handling s1 = yield_async_read s1 /\
     pending (after_handling s1) = Some OpRead /\
     written (trace (after_handling s1)) = written (trace s)) /\
  (resBuffer_ s1 <> [] ->
     after_handling s1 = yield_async_write s1 /\
     pending (after_handling s1) = Some OpWrite /\
     written (trace (after_handling s1)) = written (trace s) ++ resBuffer_ s1) /\
  (forall sr data,
     pending sr = Some OpRead -> coro sr = CoroRead ->
     reaches (emit (Log DEBUG "readed: %1.3fKb")
                (set_reqBuffer (reqBuffer_ sr ++ data) (set_pending None sr))) 0 s off ->
     session_step sr (ReadDone data Success) = Some (after_handling s1)) /\
  (exists s0 s' : Session unit,
     start echo_session = inr s0 /\
     session_step s0 (ReadDone (b "hel") Success) = Some s' /\
     reqBuffer_ s' = b "hel" /\ resBuffer_ s' = [] /\
     written (trace s') = [] /\ pending s' = Some OpRead).
Proof.
  intros Hh s1.
  assert (Hturn := requestHandling_turn s off). rewrite Hh in Hturn. cbv zeta in Hturn.
  simpl in Hturn.
  split; [exact Hturn|]. split; [reflexivity|].
  split; [intros Hlt; subst s1; simpl; now rewrite (erase_count_exact off n Hlt)|].
  split; [apply erase_count_wraps|]. split; [reflexivity|].
  assert (Hw : written (trace s1) = written (trace s)).
  { subst s1. simpl. rewrite <- app_assoc, written_app. simpl. apply app_nil_r. }
  assert (Hstep : forall sr data,
             pending sr = Some OpRead -> coro sr = CoroRead ->
             reaches (emit (Log DEBUG "readed: %1.3fKb")
                        (set_reqBuffer (reqBuffer_ sr ++ data) (set_pending None sr)))
                     0 s off ->
             session_step sr (ReadDone data Success) = Some (after_handling s1)).
  { intros sr data Hp Hc Hreach. simpl. rewrite Hp. unfold resume. simpl.
    rewrite Hc, (reaches_same_result _ _ _ _ Hreach), Hturn. reflexivity. }
  clearbody s1. split; [|split; [|split; [exact Hstep|]]].
  - intros Hr. unfold after_handling. rewrite Hr.
    split; [reflexivity|]. split; [reflexivity|].
    simpl. rewrite written_app, Hw. simpl. apply app_nil_r.
  - intros Hr. unfold after_handling.
    destruct (resBuffer_ s1) as [|c r] eqn:Er; [congruence|].
    split; [reflexivity|]. split; [reflexivity|].
    simpl. rewrite written_app, Hw, Er. simpl. now rewrite app_nil_r.
  - eexists _, _. split; [reflexivity|]. vm_compute. auto 10.
Qed.

End LoopPolicy.

(** ** The life cycle of a session *)
Section LifeCycle.
Context {H : Type} `{AbstractRequestHandler H}.
Implicit Type s : Session H.

Lemma lifecycle_trace_app tr1 tr2 :
  lifecycle_trace (tr1 ++ tr2) = lifecycle_trace tr1 ++ lifecycle_trace tr2.
Proof. apply omap_app. Qed.

Lemma lifecycle_quiet tr :
  Forall (fun e => quiet e = true) tr -> lifecycle_trace tr = [].
Proof.
  induction 1 as [|e tr He _ IH]; [reflexivity|].
  destruct e; simpl in *; try discriminate; exact IH.
Qed.

Lemma lifecycle_on_failed_events k err :
  lifecycle_trace (on_failed_events k err) = [LClose; LShutdown; LSocketClose].
Proof.
  unfold on_failed_events, atClose_events.
  destruct err, (failed (shutdown_err k)), (failed (close_err k)); reflexivity.
Qed.

Lemma io_free_app tr1 tr2 :
  Forall (fun e => is_io e = false) tr1 -> Forall (fun e => is_io e = false) tr2 ->
  Forall (fun e => is_io e = false) (tr1 ++ tr2).
Proof. intros. apply Forall_app; auto. Qed.

(** [close] adds log lines and at most a [cancel]; it changes nothing else *)
Lemma close_closed_form s :
  close s =
  mkSession (socket_ s) (coro s) (pending s) (reqHandler_ s) (reqBuffer_ s) (resBuffer_ s)
    (trace s ++
     if is_open (socket_ s)
     then [Log TRACE "close session"; SocketCancel]
          ++ (if failed (cancel_err (socket_ s))
              then [Log ERROR (message (cancel_err (socket_ s)))] else [])
     else [Log WARNING "session already closed"]).
Proof.
  destruct s as [[o re ce sh cl] c p h q r tr].
  destruct o, ce; cbv -[app]; rewrite <- ?app_assoc; reflexivity.
Qed.


Lemma on_failed_over s err :
  pending s = None -> lifecycle_trace (trace s) = [LStart] -> over (on_failed s err).
Proof.
  intros Hp Ht. rewrite on_failed_closed_form. unfold over. simpl.
  rewrite lifecycle_trace_app, Ht, lifecycle_on_failed_events. auto.
Qed.

Lemma under_way_step s i s' :
  under_way s -> session_step s i = Some s' -> under_way s' \/ over s'.
Proof.
  intros (Ho & Hpc & Ht) Hstep. destruct i as [data err|n err|]; simpl in Hstep.
  - destruct Hpc as [[Hp Hc]|[Hp Hc]]; rewrite Hp in Hstep; [|discriminate].
    injection Hstep as <-. unfold resume. destruct (failed err) eqn:Hf.
    + right. apply on_failed_over; [reflexivity|exact Ht].
    + simpl. rewrite Hc.
      set (s2 := emit _ _).
      destruct (requestHandling_result s2 0) as (calls & more & Hq & Hpe & Hr & Hctl).
      destruct (requestHandling s2 0) as [s3 ctl]. simpl in *.
      destruct ctl.
      * left. destruct Hctl as (Htr & Hs & Hco).
        unfold after_handling, under_way.
        destruct (resBuffer_ s3); simpl; rewrite Hs, Htr, !lifecycle_trace_app, Ht, (lifecycle_quiet calls Hq); simpl; auto.
      * right. destruct Hctl as (view & e & k & He & Hne & Htr & Hs & Hco).
        change (HandleCall view e k :: on_failed_events (socket_ s) e)
          with ([HandleCall view e k] ++ on_failed_events (socket_ s) e) in Htr.
        unfold over. rewrite Hs, Hpe, Htr.
        rewrite !lifecycle_trace_app, Ht, (lifecycle_quiet calls Hq),
          lifecycle_on_failed_events. simpl. auto.
  - destruct Hpc as [[Hp Hc]|[Hp Hc]]; rewrite Hp in Hstep; [discriminate|].
    injection Hstep as <-. unfold resume. destruct (failed err) eqn:Hf.
    + right. apply on_failed_over; [reflexivity|exact Ht].
    + left. simpl. rewrite Hc. unfold under_way. simpl.
      rewrite !lifecycle_trace_app, Ht. simpl. auto.
  - injection Hstep as <-. left. rewrite close_closed_form. unfold under_way. simpl.
    rewrite Ho, lifecycle_trace_app, Ht.
    destruct (failed (cancel_err (socket_ s))); simpl; auto.
Qed.

Lemma over_step s i s' : over s -> session_step s i = Some s' -> over s'.
Proof.
  intros (Ho & Hp & Ht) Hstep. destruct i; simpl in Hstep; rewrite ?Hp in Hstep;
    try discriminate.
  injection Hstep as <-. rewrite close_closed_form. unfold over. simpl.
  rewrite Ho, lifecycle_trace_app, Ht. auto.
Qed.

Lemma under_way_run inputs : forall s s',
  under_way s \/ over s -> session_run s inputs = Some s' -> under_way s' \/ over s'.
Proof.
  induction inputs as [|i inputs IH]; simpl; intros s s' Hs Hrun.
  - now injection Hrun as <-.
  - destruct (session_step s i) as [s1|] eqn:Hstep; [|discriminate].
    apply (IH s1 s'); [|exact Hrun].
    destruct Hs as [Hs|Hs]; [eapply under_way_step; eauto|right; eapply over_step; eauto].
Qed.

Lemma refused_step socket s i s' :
  refused socket s -> session_step s i = Some s' -> i = CloseCall /\ refused socket s'.
Proof.
  intros (Hs & Hp & Hc & Hio & Ht) Hstep.
  destruct i; simpl in Hstep; rewrite ?Hp in Hstep; try discriminate.
  split; [reflexivity|]. injection Hstep as <-. rewrite close_closed_form.
  unfold refused. simpl. rewrite lifecycle_trace_app, Ht.
  repeat split; auto.
  - apply io_free_app; [exact Hio|].
    destruct (is_open (socket_ s)), (failed (cancel_err (socket_ s))); simpl;
      repeat constructor.
  - destruct (is_open (socket_ s)), (failed (cancel_err (socket_ s))); reflexivity.
Qed.

Lemma refused_run socket inputs : forall s s',
  refused socket s -> session_run s inputs = Some s' -> refused socket s'.
Proof.
  induction inputs as [|i inputs IH]; simpl; intros s s' Hs Hrun.
  - now injection Hrun as <-.
  - destruct (session_step s i) as [s1|] eqn:Hstep; [|discriminate].
    apply (IH s1 s'); [|exact Hrun]. eapply refused_step; eauto.
Qed.

(** [start] on a fresh session whose peer address resolves *)
Lemma start_closed_form socket h ep :
  remote_endpoint socket = inr ep ->
  start (new_session socket h) =
  let '(h', err) := atSessionStart h ep in
  let tr := [Log TRACE "construct session"; Log TRACE "start new session";
             AtSessionStart ep err] in
  if failed err
  then inr (mkSession socket CoroInitial None h' [] []
              (tr ++ [Log ERROR (message err);
                      Log WARNING "session doesn't start, because get handler error"]))
  else inr (mkSession socket CoroRead (Some OpRead) h' [] [] (tr ++ [AsyncRead])).
Proof.
  intros Hre. unfold start, new_session. simpl. rewrite Hre.
  destruct (atSessionStart h ep) as [h' err]. simpl.
  destruct err; reflexivity.
Qed.

End LifeCycle.

Section LifeCycleTheorems.
Context {H : Type} `{AbstractRequestHandler H}.
Implicit Type s : Session H.

(** C3, as the code has it: a session started on an accepted connection
    calls [atSessionStart] exactly once, before anything else of its life
    cycle.  If [atSessionStart] succeeds, then at every later moment the
    session is either under way (socket open, one operation outstanding,
    [atSessionClose] not called yet) or over (nothing outstanding), and
    when it is over [atSessionClose] has been called exactly once, after
    [atSessionStart] and before the one shutdown and the one close of the
    socket.  If [atSessionStart] fails, [atSessionClose] is never called
    and the session never shuts down or closes its socket. *)
Theorem session_lifecycle (socket : Socket) (h : H) ep s1 inputs s :
  is_open socket = true ->
  remote_endpoint socket = inr ep ->
  start (new_session socket h) = inr s1 ->
  session_run s1 inputs = Some s ->
  if failed (atSessionStart h ep).2
  then lifecycle_trace (trace s) = [LStart] /\ is_open (socket_ s) = true /\ pending s = None
  else (is_open (socket_ s) = true /\ pending s <> None /\
        lifecycle_trace (trace s) = [LStart]) \/
       (is_open (socket_ s) = false /\ pending s = None /\
        lifecycle_trace (trace s) = [LStart; LClose; LShutdown; LSocketClose]).
Proof.
  intros Hopen Hre Hstart Hrun.
  rewrite (start_closed_form socket h ep Hre) in Hstart.
  destruct (atSessionStart h ep) as [h' err]. cbv zeta in Hstart. simpl.
  destruct (failed err) eqn:Hf; injection Hstart as <-.
  - assert (Hr : refused socket s).
    { eapply refused_run; [|exact Hrun]. unfold refused. simpl.
      repeat split; auto. repeat constructor. }
    destruct Hr as (Hs & Hp & _ & _ & Ht). rewrite Hs. auto.
  - assert (Hu : under_way s \/ over s).
    { eapply under_way_run; [|exact Hrun]. left. unfold under_way. simpl. auto. }
    destruct Hu as [(Ho & Hpc & Ht)|(Ho & Hp & Ht)]; [left|right; auto].
    repeat split; auto. destruct Hpc as [[-> _]|[-> _]]; discriminate.
Qed.

(** C9: when [atSessionStart] reports failure on a new session, [start]
    returns with nothing outstanding, and whatever happens afterwards no
    read and no write is ever issued on the socket, no completion can
    arrive, and the socket stays open. *)
Theorem refused_session_never_does_io (socket : Socket) (h : H) ep :
  is_open socket = true ->
  remote_endpoint socket = inr ep ->
  failed (atSessionStart h ep).2 = true ->
  exists s1,
    start (new_session socket h) = inr s1 /\
    forall inputs s,
      session_run s1 inputs = Some s ->
      Forall (fun e => is_io e = false) (trace s) /\
      pending s = None /\
      is_open (socket_ s) = true /\
      (forall data err, session_step s (ReadDone data err) = None) /\
      (forall n err, session_step s (WriteDone n err) = None).
Proof.
  intros Hopen Hre Hf.
  rewrite (start_closed_form socket h ep Hre).
  destruct (atSessionStart h ep) as [h' err]. simpl in Hf. cbv zeta. rewrite Hf.
  eexists. split; [reflexivity|].
  intros inputs s Hrun.
  assert (Hr : refused socket s).
  { eapply refused_run; [|exact Hrun]. unfold refused. simpl.
    repeat split; auto. repeat constructor. }
  destruct Hr as (Hs & Hp & _ & Hio & _).
  rewrite Hs. repeat split; auto; intros; simpl; now rewrite Hp.
Qed.

(** C10: [Session::close] on a session whose socket is already closed only
    logs the warning: no [cancel] is issued and no field of the session
    changes; so any number of repeated calls leaves the session as it was,
    with one warning per call. *)
Theorem close_on_closed_socket s :
  is_open (socket_ s) = false ->
  close s = emit (Log WARNING "session already closed") s /\
  forall n,
    Nat.iter n close s =
    mkSession (socket_ s) (coro s) (pending s) (reqHandler_ s) (reqBuffer_ s) (resBuffer_ s)
              (trace s ++ repeat (Log WARNING "session already closed") n).
Proof.
  intros Hc. split.
  - unfold close. now rewrite Hc.
  - induction n as [|n IH].
    + simpl. rewrite app_nil_r. now destruct s.
    + rewrite Nat.iter_succ, IH, close_closed_form. simpl. rewrite Hc.
      rewrite <- app_assoc. f_equal. f_equal.
      change (repeat ?x n ++ [?x]) with (repeat x n ++ repeat x 1).
      rewrite <- repeat_app. now rewrite Nat.add_1_r.
Qed.

End LifeCycleTheorems.

(** C3, as stated, fails: a session refused by [atSessionStart] never gets
    its [atSessionClose], whatever happens to it afterwards. *)
Lemma refused_session_never_closes : ~ every_accepted_session_closes.
Proof.
  intros Hall.
  edestruct (Hall PickyReqHandler _ good_socket (mkPicky true "!") "127.0.0.1:50000"%string)
    as (inputs & s & Hrun & Ht); [reflexivity|reflexivity|vm_compute; reflexivity|].
  assert (Hr : refused good_socket s).
  { eapply refused_run; [|exact Hrun]. unfold refused. simpl.
    repeat split; auto. repeat constructor. }
  destruct Hr as (_ & _ & _ & _ & Ht'). rewrite Ht' in Ht. discriminate.
Qed.

(** ** The echo handler behind a session *)
Module EchoSession.
Import Regex RegexFacts.

Lemma split_lines_no_newline v :
  span (not_char NL) v = length v -> split_lines v = ([], v).
Proof.
  induction v as [|c v IH]; simpl; [reflexivity|].
  unfold not_char at 1. destruct (Ascii.eqb c NL); simpl; [discriminate|].
  intros [= Hs]. now rewrite (IH Hs).
Qed.

Lemma split_lines_first_line v :
  span (not_char NL) v < length v ->
  split_lines v =
  (take (S (span (not_char NL) v)) v
     ++ (split_lines (drop (S (span (not_char NL) v)) v)).1,
   (split_lines (drop (S (span (not_char NL) v)) v)).2).
Proof.
  induction v as [|c v IH]; simpl; [lia|].
  unfold not_char at 1 3 5 7. destruct (Ascii.eqb c NL) eqn:Ec; simpl.
  - intros _. rewrite drop_0. now destruct (split_lines v).
  - intros Hlt. rewrite IH by lia.
    destruct v as [|a v]; [simpl in Hlt; lia|]. reflexivity.
Qed.

Lemma split_lines_app v d :
  split_lines (v ++ d) =
  ((split_lines v).1 ++ (split_lines ((split_lines v).2 ++ d)).1,
   (split_lines ((split_lines v).2 ++ d)).2).
Proof.
  induction v as [|c v IH]; simpl; [now destruct (split_lines d)|].
  rewrite IH. clear IH. destruct (split_lines v) as [l r]. simpl.
  destruct (Ascii.eqb c NL) eqn:Ec; simpl; [reflexivity|].
  destruct l as [|a l]; simpl; [|reflexivity].
  rewrite Ec. destruct (split_lines (r ++ d)) as [l2 r2]. simpl. now destruct l2.
Qed.

(** a whole run of the loop with the echo handler: the complete lines go
    to [resBuffer_], the unfinished rest stays in [reqBuffer_] *)
Lemma requestHandling_echo (s : Session unit) off :
  exists calls,
    Forall (fun e => quiet e = true) calls /\
    requestHandling s off =
    (mkSession (socket_ s) (coro s) (pending s) tt
               (split_lines (drop off (reqBuffer_ s))).2
               (resBuffer_ s ++ (split_lines (drop off (reqBuffer_ s))).1)
               (trace s ++ calls), Break).
Proof.
  remember (length (reqBuffer_ s) - off) as m eqn:Hm. revert s off Hm.
  induction m as [m IH] using lt_wf_ind. intros s off Hm.
  rewrite requestHandling_turn.
  change (handle (reqHandler_ s) (drop off (reqBuffer_ s)) 0)
    with (tt, Echo.handle (drop off (reqBuffer_ s)) 0).
  rewrite EchoFacts.handle_spec. cbv zeta.
  set (view := drop off (reqBuffer_ s)) in *.
  assert (Hlen : length view = length (reqBuffer_ s) - off) by apply length_drop.
  destruct (Nat.ltb_spec (span (not_char NL) view) (length view)) as [Hlt|Hge].
  - rewrite (split_lines_first_line view Hlt).
    set (n := S (span (not_char NL) view)) in *. simpl.
    destruct (whole_view_dec n (length view)) as [Hw|Hadv].
    + exists [HandleCall view Success n]. split; [repeat constructor|].
      rewrite drop_ge by lia. simpl. rewrite app_nil_r. reflexivity.
    + destruct (IH (length (reqBuffer_ s) - (off + n)) ltac:(lia)
                   (handled s off tt Success (take n view) n) (off + n) eq_refl)
        as (calls & Hq & ->).
      exists (HandleCall view Success n :: calls).
      split; [constructor; [reflexivity|assumption]|].
      simpl. fold view. unfold view at 1 2. rewrite <- (drop_drop (reqBuffer_ s) n off).
      fold view. now rewrite <- !app_assoc.
  - assert (Hs : span (not_char NL) view = length view).
    { pose proof (span_le (not_char NL) view). lia. }
    rewrite (split_lines_no_newline view Hs). simpl.
    exists [HandleCall view PartialData 0; Log WARNING "partial data in request: %1.3fKb"].
    split; [repeat constructor|]. session_fields.
    rewrite erase_count_0, app_nil_r, <- app_assoc. reflexivity.
Qed.

(** a session waiting for input with nothing staged; [q] is what it keeps
    of earlier reads, [w] what it has written so far *)
Definition ready (s : Session unit) (q w : bytes) : Prop :=
  pending s = Some OpRead /\ coro s = CoroRead /\
  resBuffer_ s = [] /\ reqBuffer_ s = q /\ written (trace s) = w.

Lemma deliver_echo s q w data :
  ready s q w ->
  exists s',
    deliver s data = Some s' /\
    ready s' (split_lines (q ++ data)).2 (w ++ (split_lines (q ++ data)).1).
Proof.
  intros (Hp & Hc & Hr & Hq & Hw). unfold deliver. simpl. rewrite Hp.
  unfold resume. simpl. rewrite Hc.
  set (s2 := emit _ _).
  destruct (requestHandling_echo s2 0) as (calls & Hquiet & ->).
  rewrite drop_0. subst s2. simpl. rewrite Hr, Hq. simpl.
  unfold after_handling. simpl.
  destruct (split_lines (q ++ data)).1 as [|c l] eqn:El.
  - eexists. split; [reflexivity|]. unfold ready. simpl.
    rewrite !written_app, Hw, (written_quiet calls Hquiet). simpl.
    rewrite !app_nil_r. auto.
  - simpl. unfold resume. simpl. rewrite Nat.eqb_refl || idtac.
    eexists. split; [reflexivity|]. unfold ready. simpl.
    rewrite !written_app, Hw, (written_quiet calls Hquiet). simpl.
    rewrite !app_nil_r. auto.
Qed.

End EchoSession.

(** C5: with the echo handler, what the peer gets back does not depend on
    how its bytes are cut into reads: two reads [d1], [d2] give the same
    output bytes as the single read [d1 ++ d2], namely the complete lines of
    [d1 ++ d2]; in particular "hel" followed by "lo\n" gives what "hello\n"
    gives, the bytes "hello\n". *)
Theorem echo_split_reads (d1 d2 : bytes) :
  conversation good_socket tt [d1; d2] = conversation good_socket tt [d1 ++ d2] /\
  conversation good_socket tt [d1 ++ d2] = Some (split_lines (d1 ++ d2)).1 /\
  conversation good_socket tt [b "hel"; b "lo" ++ [NL]] = Some (b "hello" ++ [NL]) /\
  conversation good_socket tt [b "hello" ++ [NL]] = Some (b "hello" ++ [NL]).
Proof.
  assert (Hstart : exists s0 : Session unit,
             start (new_session good_socket tt) = inr s0 /\ EchoSession.ready s0 [] []).
  { eexists. split; [reflexivity|]. repeat split. }
  destruct Hstart as (s0 & Hs0 & Hr0).
  assert (Hone : conversation good_socket tt [d1 ++ d2] = Some (split_lines (d1 ++ d2)).1).
  { unfold conversation. rewrite Hs0. simpl.
    destruct (EchoSession.deliver_echo s0 [] [] (d1 ++ d2) Hr0) as (s1 & -> & Hr1).
    simpl. destruct Hr1 as (_ & _ & _ & _ & ->). reflexivity. }
  split; [|split; [exact Hone|split; reflexivity]].
  rewrite Hone. unfold conversation. rewrite Hs0. simpl.
  destruct (EchoSession.deliver_echo s0 [] [] d1 Hr0) as (s1 & -> & Hr1).
  destruct (EchoSession.deliver_echo s1 _ _ d2 Hr1) as (s2 & -> & Hr2).
  simpl in *. destruct Hr2 as (_ & _ & _ & _ & ->).
  now rewrite (EchoSession.split_lines_app d1 d2).
Qed.

(** ** Failures: of the handler, and around an accept *)
Section Failures.
Context {F H : Type} `{AbstractRequestHandler H} `{AbstractRequestHandlerFactory F H}.
Implicit Type s : Session H.
Implicit Type srv : ServerImplStream F H.

(** the turn of the loop in which the handler fails *)
Lemma requestHandling_unexpected s off h' err out n :
  handle (reqHandler_ s) (drop off (reqBuffer_ s)) 0 = (h', (err, out, n)) ->
  failed err = true -> err <> PartialData ->
  requestHandling s off =
  (set_coro CoroComplete (on_failed (handled s off h' err out n) err), Return).
Proof.
  intros Hh Hf Hne. rewrite requestHandling_turn, Hh. cbv zeta. rewrite Hf.
  destruct (decide (err = PartialData)); [contradiction|reflexivity].
Qed.

(** once a session is over, nothing is written any more *)
Lemma nothing_written_after_close inputs : forall s s',
  is_open (socket_ s) = false -> pending s = None ->
  session_run s inputs = Some s' ->
  written (trace s') = written (trace s) /\
  is_open (socket_ s') = false /\ pending s' = None.
Proof.
  induction inputs as [|i inputs IH]; simpl; intros s s' Ho Hp Hrun.
  - injection Hrun as <-. auto.
  - destruct i; simpl in Hrun; rewrite ?Hp in Hrun; try discriminate.
    destruct (IH (close s) s') as (Hw & Ho' & Hp'); auto;
      try (rewrite close_closed_form; simpl; rewrite ?Ho; auto).
    split; [|auto]. rewrite Hw, close_closed_form. simpl. rewrite Ho, written_app.
    simpl. apply app_nil_r.
Qed.

(** C7: a read completes and, in the processing pass, after any number of
    calls that consumed complete messages, the handler returns a status
    [err] that is neither Success nor PartialData.  Then the pass stops at
    that call and the error block of [operator()] runs, with the events a
    read completing with [err] gives; the session is over (socket closed,
    nothing outstanding); what was staged in [resBuffer_] is still there and
    is never written, now or later; and in the server no other session, nor
    the accept loop, has changed. *)
Theorem handler_failure_ends_session srv p s data sk offk h' err out n :
  heap srv !! p = Some s ->
  pending s = Some OpRead ->
  coro s = CoroRead ->
  reaches (emit (Log DEBUG "readed: %1.3fKb")
             (set_reqBuffer (reqBuffer_ s ++ data) (set_pending None s))) 0 sk offk ->
  handle (reqHandler_ sk) (drop offk (reqBuffer_ sk)) 0 = (h', (err, out, n)) ->
  failed err = true ->
  err <> PartialData ->
  exists s' calls,
    Forall (fun e => quiet e = true) calls /\
    session_step s (ReadDone data Success) = Some s' /\
    trace s' = trace s ++ [Log DEBUG "readed: %1.3fKb"] ++ calls
                 ++ [HandleCall (drop offk (reqBuffer_ sk)) err n]
                 ++ on_failed_events (socket_ s) err /\
    (forall data', exists s'',
        session_step s (ReadDone data' err) = Some s'' /\
        trace s'' = trace s ++ on_failed_events (socket_ s) err /\
        socket_ s'' = socket_ s' /\ pending s'' = pending s') /\
    is_open (socket_ s') = false /\ pending s' = None /\ coro s' = CoroComplete /\
    resBuffer_ s' = resBuffer_ sk ++ out /\
    (forall inputs s3,
        session_run s' inputs = Some s3 -> written (trace s3) = written (trace s)) /\
    exists srv',
      server_step srv (SessionDone p (ReadDone data Success)) = Some srv' /\
      heap srv' !! p = Some s' /\
      (forall q, q <> p -> heap srv' !! q = heap srv !! q) /\
      sessions_ srv' = sessions_ srv /\ accepting srv' = accepting srv /\
      accept_coro srv' = accept_coro srv /\ server_trace srv' = server_trace srv.
Proof.
  intros Hheap Hp Hc Hreach Hh Hf Hne.
  set (s2 := emit _ _) in Hreach.
  assert (Hres := reaches_same_result _ _ _ _ Hreach).
  rewrite (requestHandling_unexpected sk offk h' err out n Hh Hf Hne) in Hres.
  destruct (reaches_frame _ _ _ _ Hreach) as (Hsk & Hpk & _ & calls & Hq & Htk).
  rewrite on_failed_closed_form in Hres. unfold set_coro in Hres. simpl in Hres.
  rewrite Hsk, Hpk, Htk in Hres. subst s2. simpl in Hres.
  set (s' := mkSession _ _ _ _ _ _ _) in Hres.
  assert (Hstep : session_step s (ReadDone data Success) = Some s').
  { simpl. rewrite Hp. unfold resume. simpl. rewrite Hc, Hres. reflexivity. }
  assert (Hw : written (trace s') = written (trace s)).
  { subst s'. simpl. rewrite !written_app, (written_quiet calls Hq), quiet_on_failed_events.
    simpl. now rewrite !app_nil_r. }
  exists s', calls.
  split; [exact Hq|]. split; [exact Hstep|].
  split; [subst s'; simpl; now rewrite <- !app_assoc|].
  split.
  { intros data'. eexists. simpl. rewrite Hp. split; [reflexivity|].
    unfold resume. rewrite Hf, on_failed_closed_form. simpl. auto. }
  split; [reflexivity|]. split; [reflexivity|]. split; [reflexivity|].
  split; [reflexivity|].
  split.
  { intros inputs s3 Hrun.
    destruct (nothing_written_after_close inputs s' s3) as (Hw3 & _);
      [reflexivity|reflexivity|exact Hrun|].
    now rewrite Hw3. }
  eexists. split.
  { simpl. rewrite Hheap. simpl in Hstep. rewrite Hp in Hstep. rewrite Hp.
    injection Hstep as Hstep. rewrite Hstep. reflexivity. }
  simpl. split.
  { apply list_lookup_insert_eq. eapply lookup_lt_Some. exact Hheap. }
  split; [|auto].
  intros q Hq'. apply list_lookup_insert_ne. auto.
Qed.

(** C8: the completion of an accept, with the loop waiting at its yield.
    If the accept itself failed the loop ends: no further accept is issued,
    and of the two cases the cancellation logs no error.  If the accept
    succeeded, the next accept is issued whatever happens in the handling:
    an exception thrown there (the peer address that cannot be resolved, the
    factory, the start of the session) is logged as an error and the loop
    waits at its yield again. *)
Theorem accept_loop_survives_exceptions srv err socket :
  accepting srv = true ->
  accept_coro srv = AcceptYield ->
  exists srv',
    server_step srv (AcceptDone err socket) = Some srv' /\
    accepting srv' = negb (failed err) /\
    (failed err = true ->
       server_trace srv' =
         server_trace srv
         ++ [match err with
             | OperationAborted => Log DEBUG "accepting canceled"
             | _ => Log ERROR (message err)
             end; Log DEBUG "break the server coroutine"] /\
       heap srv' = heap srv /\ sessions_ srv' = sessions_ srv) /\
    (failed err = false ->
       let srv1 := server_emit (Log DEBUG "accept new connection")
                     (mkServer (accept_coro srv) false (reqHandlerFactory_ srv)
                               (sessions_ srv) (heap srv) (server_trace srv)) in
       accept_coro srv' = AcceptYield /\
       (forall e, remote_endpoint socket = inl e -> (accept_try srv1 socket).2 = Some e) /\
       match (accept_try srv1 socket).2 with
       | Some e =>
           server_trace srv' =
             server_trace (accept_try srv1 socket).1 ++ [Log ERROR (what e); AsyncAccept]
       | None =>
           server_trace srv' = server_trace (accept_try srv1 socket).1 ++ [AsyncAccept]
       end).
Proof.
  intros Ha Hc. eexists. split; [simpl; rewrite Ha; reflexivity|].
  unfold accept_resume. destruct (failed err) eqn:Hf.
  - destruct err; try discriminate;
      (split; [reflexivity|]; split; [|discriminate]; intros _;
       simpl; rewrite <- app_assoc; auto).
  - split; [simpl; rewrite Hc; reflexivity|]. split; [discriminate|]. intros _.
    cbn [accept_coro]. rewrite Hc. cbv zeta.
    set (srv1 := server_emit _ _).
    split; [destruct (accept_try srv1 socket) as [srv2 [e|]]; reflexivity|].
    split.
    { intros e He. unfold accept_try. now rewrite He. }
    destruct (accept_try srv1 socket) as [srv2 [e|]]; simpl; [|reflexivity].
    now rewrite <- app_assoc.
Qed.

End Failures.

(** ** The endpoint check of the builder *)
Module BuilderFacts.
Import Regex RegexFacts Builder.

(** one quantified class in front of the rest of a pattern *)
Lemma exec_rep_some full cls lo hi its ab s pieces :
  exec full (Rep cls lo hi :: its) ab s = Some pieces ->
  exists k rest,
    pieces = take k s :: rest /\ lo <= k <= span cls s /\
    (forall h, hi = Some h -> k <= h) /\
    exec full its (ab && (k =? 0)) (drop k s) = Some rest.
Proof.
  simpl. intros Ht. apply try_down_some in Ht. destruct Ht as (k & Hk & Hf).
  destruct (exec full its (ab && (k =? 0)) (drop k s)) as [rest|] eqn:E; [|discriminate].
  injection Hf as <-. exists k, rest.
  split; [reflexivity|]. split; [destruct hi; lia|]. split; [intros h ->; lia|exact E].
Qed.

Lemma exec_char full x its ab s :
  exec full (Rep (is_char x) 1 (Some 1) :: its) ab s =
  match s with
  | c :: t => if Ascii.eqb c x then cons [c] <$> exec full its false t else None
  | [] => None
  end.
Proof.
  destruct s as [|c t]; simpl; [reflexivity|].
  unfold is_char. destruct (Ascii.eqb c x); simpl; [|reflexivity].
  rewrite drop_0, andb_false_r. now destruct (exec full its false t).
Qed.

(** [\d{1,5}] up to the end of the input *)
Lemma exec_digits_complete ab port :
  1 <= length port <= 5 -> Forall (fun c => is_digit c = true) port ->
  exec true [Rep is_digit 1 (Some 5)] ab port = Some [port].
Proof.
  intros Hlen Hd. cbn [exec]. cbv zeta.
  assert (Hs : span is_digit port = length port).
  { clear Hlen. induction Hd as [|c port Hc _ IH]; simpl; [reflexivity|].
    now rewrite Hc, IH. }
  rewrite Hs. apply try_down_hit; [lia|].
  replace (5 `min` length port) with (length port) by lia.
  now rewrite drop_all, firstn_all.
Qed.

Lemma regex_match_complete host port :
  host <> [] -> Forall (fun c => c <> ":"%char) host ->
  1 <= length port <= 5 -> Forall (fun c => is_digit c = true) port ->
  regex_match hostAndPortReg (host ++ ":"%char :: port) = Some [host; [":"%char]; port].
Proof.
  intros Hne Hh Hlen Hd. unfold regex_match, hostAndPortReg.
  change (exec true (Rep (not_char ":") 1 None :: ?its) true ?s)
    with (try_down (fun k => cons (take k s) <$> exec true its (true && (k =? 0)) (drop k s))
                   1 (span (not_char ":") s)).
  assert (Hs : span (not_char ":") (host ++ ":"%char :: port) = length host).
  { rewrite span_app_all; [simpl; lia|].
    eapply Forall_impl; [exact Hh|]. intros c Hc. unfold not_char.
    destruct (Ascii.eqb_spec c ":"); [contradiction|reflexivity]. }
  rewrite Hs. apply try_down_hit; [destruct host; [contradiction|simpl; lia]|].
  rewrite drop_app_length, take_app_length, exec_char, Ascii.eqb_refl.
  now rewrite (exec_digits_complete false port Hlen Hd).
Qed.

Lemma regex_match_sound s pieces :
  regex_match hostAndPortReg s = Some pieces ->
  exists host port, pieces = [host; [":"%char]; port] /\ host_port_shape s host port.
Proof.
  unfold regex_match, hostAndPortReg. intros Hm.
  apply exec_rep_some in Hm. destruct Hm as (k & rest & -> & Hk & _ & Hm).
  rewrite exec_char in Hm.
  destruct (drop k s) as [|c t] eqn:Hd; [discriminate|].
  destruct (Ascii.eqb_spec c ":") as [->|]; [|discriminate].
  destruct (exec true [Rep is_digit 1 (Some 5)] false t) as [rest'|] eqn:Hp; [|discriminate].
  injection Hm as <-.
  apply exec_rep_some in Hp. destruct Hp as (j & rest2 & -> & Hj & Hhi & Hend).
  simpl in Hend. destruct (drop j t) eqn:Hdj; [|discriminate]. injection Hend as <-.
  assert (Hjt : take j t = t).
  { rewrite <- (take_drop j t) at 2. now rewrite Hdj, app_nil_r. }
  rewrite Hjt. exists (take k s), t. split; [reflexivity|].
  assert (Hlt : length t = j).
  { rewrite <- Hjt, length_take. pose proof (span_le is_digit t). lia. }
  unfold host_port_shape. repeat split.
  - rewrite <- Hd. symmetry. apply take_drop.
  - intros Hnil. apply (f_equal (@length ascii)) in Hnil.
    rewrite length_take in Hnil. pose proof (span_le (not_char ":") s). simpl in Hnil. lia.
  - assert (Hall := span_all (not_char ":") s).
    replace k with (k `min` span (not_char ":") s) by lia.
    rewrite <- take_take. apply Forall_take. eapply Forall_impl; [exact Hall|].
    intros c Hc ->. discriminate.
  - lia.
  - specialize (Hhi 5 eq_refl). lia.
  - rewrite <- Hjt. replace j with (j `min` span is_digit t) by lia.
    rewrite <- take_take. apply Forall_take. apply span_all.
Qed.

End BuilderFacts.

Section BuildTheorems.
Context {address : Type} (make_address : bytes -> option address).
Context (listen : Builder.Endpoint (address := address) -> option exception).
Context {F H : Type} `{AbstractRequestHandler H} `{AbstractRequestHandlerFactory F H}.
Import Builder.

(** C4, as the code has it: under Tcp, [build] gives a server only from an
    endpoint string of the form [host:port] with [host] not empty, free of
    colons and accepted by [make_address], and [port] one to five decimal
    digits; the value of the port is not checked against a range.  When the
    string has not that form, or when [make_address] refuses the host,
    [build] throws [std::invalid_argument] to its caller. *)
Theorem build_tcp_endpoint_check (bld : ServerBuilder (F := F)) :
  protocol_ bld = Tcp ->
  (forall impl,
      build (H := H) make_address listen bld = Built impl ->
      exists factory host port addr,
        factory_ bld = Some factory /\
        host_port_shape (endpoint_ bld) host port /\
        make_address host = Some addr /\
        impl = (TcpEndpoint addr (to_port (stoi port)), new_server factory)) /\
  (factory_ bld <> None ->
   (forall host port, ~ host_port_shape (endpoint_ bld) host port) ->
   build (H := H) make_address listen bld = ThrowInvalidArgument "invalid host or port") /\
  (factory_ bld <> None ->
   forall host port,
     host_port_shape (endpoint_ bld) host port -> make_address host = None ->
     build (H := H) make_address listen bld = ThrowInvalidArgument "invalid address: %1%").
Proof.
  intros Hproto. unfold build. rewrite Hproto.
  destruct (factory_ bld) as [factory|]; [|repeat split; try discriminate; congruence].
  split; [|split].
  - intros impl Hb.
    destruct (Regex.regex_match hostAndPortReg (endpoint_ bld)) as [pieces|] eqn:Hm;
      [|discriminate].
    apply BuilderFacts.regex_match_sound in Hm.
    destruct Hm as (host & port & -> & Hshape). simpl in Hb.
    destruct (make_address host) as [addr|] eqn:Ha; [|discriminate].
    unfold make_impl in Hb. destruct (listen _); [discriminate|].
    injection Hb as <-. exists factory, host, port, addr. auto.
  - intros _ Hno.
    destruct (Regex.regex_match hostAndPortReg (endpoint_ bld)) as [pieces|] eqn:Hm;
      [|reflexivity].
    apply BuilderFacts.regex_match_sound in Hm.
    destruct Hm as (host & port & _ & Hshape). now destruct (Hno host port).
  - intros _ host port (Heq & Hne & Hh & Hlen & Hd) Ha.
    rewrite Heq, (BuilderFacts.regex_match_complete host port Hne Hh Hlen Hd). simpl.
    now rewrite Ha.
Qed.

End BuildTheorems.

(** C4, as stated, fails: with an address parser that takes the loopback
    literal and a system that lets the acceptor listen, [build] gives a
    server for "127.0.0.1:0", whose port is not in 1 to 65535. *)
Lemma build_accepts_port_zero : ~ build_checks_port_range.
Proof.
  intros Hall.
  edestruct (Hall unit loopback_only (fun _ => None)
                  (Builder.mkBuilder (Some tt) Builder.Tcp (b "127.0.0.1:0")))
    as (host & port & Heq & Hd & Hrange & _); [reflexivity|vm_compute; reflexivity|].
  simpl in Heq.
  assert (Hport : port = b "0").
  { clear -Heq.
    repeat (destruct host as [|? host]; cbn in Heq;
            [first [discriminate Heq | injection Heq as Hp; symmetry; exact Hp]
            |try discriminate Heq; injection Heq as _ Heq]). }
  subst port. vm_compute in Hrange. destruct Hrange as [Hlo _]. now apply Hlo.
Qed.

(** C1, as stated, fails: the echo handler on the single read "a\nhel"
    reports PartialData on "hel", and the session writes "a\n" before it
    reads again. *)
Lemma partial_data_after_a_line_writes : ~ partial_data_never_writes.
Proof.
  intros Hall.
  assert (Hstart : start (new_session good_socket tt) = inr echo_started) by reflexivity.
  assert (Hstep : session_step echo_started (ReadDone (b "a" ++ NL :: b "hel") Success) =
                  Some (default echo_started
                          (session_step echo_started
                             (ReadDone (b "a" ++ NL :: b "hel") Success))))
    by reflexivity.
  destruct (Hall unit _ good_socket tt echo_started _ _ (b "hel") 0 Hstart Hstep)
    as (_ & Hp & _).
  - vm_compute. auto 20.
  - vm_compute in Hp. discriminate Hp.
Qed.

(** ** The theorems at work *)

(** the echo handler on "hel": partial data, the three bytes kept *)
Lemma partial_data_keeps_tail_witness :
  let s := set_reqBuffer (b "hel") echo_started in
  handle (reqHandler_ s) (drop 0 (reqBuffer_ s)) 0 = (tt, (PartialData, [], 0)) /\
  reqBuffer_ (requestHandling s 0).1 = b "hel" /\ (requestHandling s 0).2 = Break.
Proof.
  intros s. split; [reflexivity|].
  assert (Hh : handle (reqHandler_ s) (drop 0 (reqBuffer_ s)) 0 = (tt, (PartialData, [], 0)))
    by reflexivity.
  destruct (partial_data_keeps_tail s 0 tt [] 0 Hh) as (-> & _).
  split; reflexivity.
Defined.

(** the echo handler on "a\nb\n": the first line is consumed and the loop
    goes on two bytes further *)
Lemma requestHandling_success_policy_witness :
  let s := set_reqBuffer (b "a" ++ NL :: b "b" ++ [NL]) echo_started in
  handle (reqHandler_ s) (drop 0 (reqBuffer_ s)) 0 = (tt, (Success, b "a" ++ [NL], 2)) /\
  requestHandling s 0 = requestHandling (handled s 0 tt Success (b "a" ++ [NL]) 2) 2.
Proof.
  intros s. split; [reflexivity|].
  assert (Hh : handle (reqHandler_ s) (drop 0 (reqBuffer_ s)) 0
               = (tt, (Success, b "a" ++ [NL], 2))) by reflexivity.
  apply (requestHandling_success_policy s 0 tt (b "a" ++ [NL]) 2 Hh).
  vm_compute. lia.
Defined.

(** an echo session that reads "hel", is closed by the server and gets its
    read back as cancelled: one start, one close sequence *)
Lemma session_lifecycle_witness :
  let inputs := [ReadDone (b "hel") Success; CloseCall; ReadDone [] OperationAborted] in
  let s := default echo_started (session_run echo_started inputs) in
  is_open good_socket = true /\
  remote_endpoint good_socket = inr "127.0.0.1:50000"%string /\
  start (new_session good_socket tt) = inr echo_started /\
  session_run echo_started inputs = Some s /\
  lifecycle_trace (trace s) = [LStart; LClose; LShutdown; LSocketClose].
Proof.
  intros inputs s.
  assert (Hstart : start (new_session good_socket tt) = inr echo_started) by reflexivity.
  assert (Hrun : session_run echo_started inputs = Some s) by (vm_compute; reflexivity).
  split; [reflexivity|]. split; [reflexivity|]. split; [exact Hstart|]. split; [exact Hrun|].
  destruct (session_lifecycle good_socket tt "127.0.0.1:50000"%string echo_started inputs s
              ltac:(reflexivity) ltac:(reflexivity) Hstart Hrun) as [(Ho & _)|(_ & _ & Ht)].
  - vm_compute in Ho. discriminate Ho.
  - exact Ht.
Defined.

(** a session of a handler that refuses every peer *)
Lemma refused_session_never_does_io_witness :
  is_open good_socket = true /\
  remote_endpoint good_socket = inr "127.0.0.1:50000"%string /\
  failed (atSessionStart (mkPicky true "!") "127.0.0.1:50000"%string).2 = true /\
  exists s1,
    start (new_session good_socket (mkPicky true "!")) = inr s1 /\
    forall inputs s,
      session_run s1 inputs = Some s ->
      Forall (fun e => is_io e = false) (trace s) /\ pending s = None /\
      is_open (socket_ s) = true.
Proof.
  repeat (split; [reflexivity|]).
  destruct (refused_session_never_does_io good_socket (mkPicky true "!")
              "127.0.0.1:50000"%string ltac:(reflexivity) ltac:(reflexivity)
              ltac:(reflexivity)) as (s1 & Hs & Hall).
  exists s1. split; [exact Hs|].
  intros inputs s Hrun. destruct (Hall inputs s Hrun) as (Hio & Hp & Ho & _). auto.
Defined.

(** [close], once and three times, on the echo session whose peer has gone *)
Lemma close_on_closed_socket_witness :
  is_open (socket_ echo_closed) = false /\
  close echo_closed = emit (Log WARNING "session already closed") echo_closed /\
  trace (Nat.iter 3 close echo_closed) =
    trace echo_closed ++ repeat (Log WARNING "session already closed") 3.
Proof.
  split; [reflexivity|].
  destruct (close_on_closed_socket echo_closed ltac:(reflexivity)) as (Hc & Hn).
  split; [exact Hc|]. now rewrite (Hn 3).
Defined.

(** the read "a\n!x": the line "a\n" is staged, the handler fails on "!x",
    and "a\n" is never written *)
Lemma handler_failure_ends_session_witness :
  let data := b "a" ++ NL :: b "!x" in
  let s2 := emit (Log DEBUG "readed: %1.3fKb")
              (set_reqBuffer (reqBuffer_ picky_started ++ data)
                 (set_pending None picky_started)) in
  let sk := handled s2 0 (mkPicky false "!") Success (b "a" ++ [NL]) 2 in
  heap picky_server !! 0 = Some picky_started /\
  pending picky_started = Some OpRead /\
  coro picky_started = CoroRead /\
  reaches s2 0 sk 2 /\
  handle (reqHandler_ sk) (drop 2 (reqBuffer_ sk)) 0
    = (mkPicky false "!", (OtherError 5, [], 0)) /\
  exists s',
    session_step picky_started (ReadDone data Success) = Some s' /\
    is_open (socket_ s') = false /\
    resBuffer_ s' = b "a" ++ [NL] /\
    forall inputs s3, session_run s' inputs = Some s3 -> written (trace s3) = [].
Proof.
  intros data s2 sk.
  assert (Hheap : heap picky_server !! 0 = Some picky_started) by reflexivity.
  assert (Hp : pending picky_started = Some OpRead) by reflexivity.
  assert (Hc : coro picky_started = CoroRead) by reflexivity.
  assert (Hreach : reaches s2 0 sk 2).
  { apply (reaches_next s2 0 (mkPicky false "!") (b "a" ++ [NL]) 2 sk 2);
      [reflexivity|vm_compute; lia|apply reaches_here]. }
  assert (Hh : handle (reqHandler_ sk) (drop 2 (reqBuffer_ sk)) 0
               = (mkPicky false "!", (OtherError 5, [], 0))) by reflexivity.
  repeat (split; [assumption|]).
  destruct (handler_failure_ends_session picky_server 0 picky_started data sk 2
              (mkPicky false "!") (OtherError 5) [] 0 Hheap Hp Hc Hreach Hh
              ltac:(reflexivity) ltac:(discriminate))
    as (s' & calls & _ & Hstep & _ & _ & Ho & _ & _ & Hr & Hw & _).
  exists s'. split; [exact Hstep|]. split; [exact Ho|]. split; [|exact Hw].
  rewrite Hr. reflexivity.
Defined.

(** an accepted socket whose peer address cannot be resolved *)
Lemma accept_loop_survives_exceptions_witness :
  accepting echo_server = true /\
  accept_coro echo_server = AcceptYield /\
  exists srv',
    server_step echo_server (AcceptDone Success unresolved_socket) = Some srv' /\
    accepting srv' = true /\ accept_coro srv' = AcceptYield.
Proof.
  repeat (split; [reflexivity|]).
  assert (Ha0 : accepting echo_server = true) by reflexivity.
  assert (Hc0 : accept_coro echo_server = AcceptYield) by reflexivity.
  destruct (accept_loop_survives_exceptions echo_server Success unresolved_socket
              Ha0 Hc0) as (srv' & Hstep & Ha & _ & Hok).
  exists srv'. split; [exact Hstep|]. split; [exact Ha|]. apply (Hok eq_refl).
Defined.

(** the endpoint "127.0.0.1:8080" *)
Lemma build_tcp_endpoint_check_witness :
  let bld := Builder.mkBuilder (Some tt) Builder.Tcp (b "127.0.0.1:8080") in
  Builder.protocol_ bld = Builder.Tcp /\
  forall impl,
    Builder.build (H := unit) loopback_only (fun _ => None) bld = Builder.Built impl ->
    exists factory host port addr,
      Builder.factory_ bld = Some factory /\
      host_port_shape (Builder.endpoint_ bld) host port /\
      loopback_only host = Some addr /\
      impl = (Builder.TcpEndpoint addr (Builder.to_port (Builder.stoi port)),
              new_server factory).
Proof.
  intros bld. split; [reflexivity|].
  apply (build_tcp_endpoint_check (H := unit) loopback_only (fun _ => None) bld
           ltac:(reflexivity)).
Defined.

(** * Further properties of the code *)

(** ** The echo handler on any view *)

(** [EchoReqHandler::handle] on a view with a newline echoes the first line
    with its newline and reports its length; on a view without a newline it
    reports PartialData, pushes nothing and leaves [reqIgnoreLength] alone. *)
Theorem echo_handle_first_line (request : bytes) (n0 : nat) :
  (forall line rest,
      request = line ++ NL :: rest -> Forall (fun c => c <> NL) line ->
      Echo.handle request n0 = (Success, line ++ [NL], S (length line))) /\
  (Forall (fun c => c <> NL) request ->
   Echo.handle request n0 = (PartialData, [], n0)).
Proof.
  assert (Hcls : forall l, Forall (fun c => c <> NL) l ->
                           Forall (fun c => Regex.not_char NL c = true) l).
  { intros l Hl. eapply Forall_impl; [exact Hl|]. intros c Hc. unfold Regex.not_char.
    destruct (Ascii.eqb_spec c NL); [contradiction|reflexivity]. }
  split.
  - intros line rest -> Hline. rewrite EchoFacts.handle_spec. cbv zeta.
    rewrite (RegexFacts.span_app_all _ line (NL :: rest) (Hcls line Hline)).
    cbn [Regex.span]. unfold Regex.not_char at 1 3 5. rewrite Ascii.eqb_refl. cbn [negb].
    rewrite Nat.add_0_r, length_app. cbn [length].
    destruct (Nat.ltb_spec (length line) (length line + S (length rest))); [|lia].
    replace (S (length line)) with (length (line ++ [NL])) at 1
      by (rewrite length_app; simpl; lia).
    change (line ++ NL :: rest) with (line ++ [NL] ++ rest).
    rewrite app_assoc, take_app_length. reflexivity.
  - intros Hreq. rewrite EchoFacts.handle_spec. cbv zeta.
    rewrite <- (app_nil_r request) at 1 2.
    rewrite (RegexFacts.span_app_all _ request [] (Hcls request Hreq)). simpl.
    rewrite Nat.add_0_r, app_nil_r.
    destruct (Nat.ltb_spec (length request) (length request)); [lia|reflexivity].
Qed.

(** ** An echo session fed with any chunks *)
Module EchoRuns.
Import EchoSession.

Lemma split_lines_whole v : (split_lines v).1 ++ (split_lines v).2 = v.
Proof.
  induction v as [|c v IH]; [reflexivity|]. simpl.
  destruct (split_lines v) as [l r]. simpl in IH.
  destruct (Ascii.eqb c NL); simpl; [now rewrite IH|].
  destruct l; simpl in *; now rewrite IH.
Qed.

Lemma split_lines_rest v : Forall (fun c => c <> NL) (split_lines v).2.
Proof.
  induction v as [|c v IH]; [constructor|]. simpl.
  destruct (split_lines v) as [l r]. simpl in IH.
  destruct (Ascii.eqb_spec c NL); simpl; [exact IH|].
  destruct l; simpl; [constructor; assumption|exact IH].
Qed.

Lemma split_lines_ends v :
  (split_lines v).1 = [] \/ exists l, (split_lines v).1 = l ++ [NL].
Proof.
  induction v as [|c v IH]; [now left|]. simpl.
  destruct (split_lines v) as [l r]. simpl in IH.
  destruct (Ascii.eqb_spec c NL) as [->|Hc]; simpl.
  - right. destruct IH as [->|(l' & ->)]; [now exists []|now exists (NL :: l')].
  - destruct l as [|a l]; simpl; [now left|]. right.
    destruct IH as [IH|(l' & IH)]; [discriminate|]. exists (c :: l'). now rewrite IH.
Qed.

Lemma split_lines_unfinished v :
  Forall (fun c => c <> NL) v -> split_lines v = ([], v).
Proof.
  induction 1 as [|c v Hc _ IH]; [reflexivity|]. simpl. rewrite IH.
  destruct (Ascii.eqb_spec c NL); [contradiction|reflexivity].
Qed.

Lemma feed_echo chunks : forall s q w,
  ready s q w -> Forall (fun c => c <> NL) q ->
  exists s',
    feed s chunks = Some s' /\
    ready s' (split_lines (q ++ concat chunks)).2
             (w ++ (split_lines (q ++ concat chunks)).1).
Proof.
  induction chunks as [|d chunks IH]; intros s q w Hr Hq; simpl.
  - exists s. split; [reflexivity|].
    rewrite !app_nil_r, (split_lines_unfinished q Hq). simpl. now rewrite app_nil_r.
  - destruct (deliver_echo s q w d Hr) as (s1 & -> & Hr1).
    destruct (IH s1 _ _ Hr1 (split_lines_rest (q ++ d))) as (s' & -> & Hr').
    exists s'. split; [reflexivity|].
    rewrite app_assoc, (split_lines_app (q ++ d) (concat chunks)). simpl.
    now rewrite <- app_assoc in Hr'.
Qed.

End EchoRuns.

(** Whatever the chunks the peer's bytes arrive in, an echo session has
    written all the complete lines received and keeps the unfinished rest:
    written bytes and kept bytes together are the bytes received, in order,
    the kept bytes hold no newline, and the written bytes end in one. *)
Theorem echo_session_any_chunks (chunks : list bytes) :
  exists s' : Session unit,
    feed echo_started chunks = Some s' /\
    written (trace s') ++ reqBuffer_ s' = concat chunks /\
    Forall (fun c => c <> NL) (reqBuffer_ s') /\
    (written (trace s') = [] \/ exists l, written (trace s') = l ++ [NL]) /\
    resBuffer_ s' = [] /\ pending s' = Some OpRead.
Proof.
  assert (Hr0 : EchoSession.ready echo_started [] []) by (repeat split).
  destruct (EchoRuns.feed_echo chunks echo_started [] [] Hr0 ltac:(constructor))
    as (s' & Hfeed & Hp & _ & Hres & Hq & Hw).
  exists s'. simpl in Hq, Hw. rewrite Hq, Hw.
  split; [exact Hfeed|]. split; [apply EchoRuns.split_lines_whole|].
  split; [apply EchoRuns.split_lines_rest|].
  split; [apply EchoRuns.split_lines_ends|]. auto.
Qed.

(** ** The order of reads and writes *)
Section Discipline.
Context {H : Type} `{AbstractRequestHandler H}.
Implicit Type s : Session H.

Lemma silent_io_events evs : silent evs -> io_events evs = [].
Proof.
  induction 1 as [|e evs He _ IH]; [reflexivity|].
  unfold io_events in *. simpl. now rewrite He.
Qed.

Lemma silent_nonempty evs : silent evs -> Forall nonempty_write evs.
Proof.
  intros Hs. eapply Forall_impl; [exact Hs|].
  intros e He. destruct e; simpl in *; auto; discriminate.
Qed.

Lemma quiet_silent evs : Forall (fun e => quiet e = true) evs -> silent evs.
Proof.
  intros Hs. eapply Forall_impl; [exact Hs|].
  intros e He. destruct e; simpl in *; auto; discriminate.
Qed.

Lemma on_failed_events_silent k err : silent (on_failed_events k err).
Proof.
  unfold on_failed_events, atClose_events.
  destruct err, (failed (shutdown_err k)), (failed (close_err k)); repeat constructor.
Qed.

Lemma io_events_app tr1 tr2 : io_events (tr1 ++ tr2) = io_events tr1 ++ io_events tr2.
Proof. apply omap_app. Qed.

Lemma writes_follow_reads_snoc_read l :
  writes_follow_reads l -> writes_follow_reads (l ++ [OpRead]).
Proof.
  intros Hl pre post Heq.
  destruct post as [|x post _] using rev_ind.
  - apply app_inj_tail in Heq. destruct Heq as [_ Heq]. discriminate.
  - change (pre ++ OpWrite :: post ++ [x]) with (pre ++ (OpWrite :: post) ++ [x]) in Heq.
    rewrite app_assoc in Heq. apply app_inj_tail in Heq. destruct Heq as [Heq _].
    exact (Hl pre post Heq).
Qed.

Lemma writes_follow_reads_snoc_write l :
  writes_follow_reads l -> last l = Some OpRead -> writes_follow_reads (l ++ [OpWrite]).
Proof.
  intros Hl Hlast pre post Heq.
  destruct post as [|x post _] using rev_ind.
  - apply app_inj_tail in Heq. destruct Heq as [<- _].
    destruct l as [|y l _] using rev_ind; [discriminate|].
    rewrite last_snoc in Hlast. injection Hlast as ->. now exists l.
  - change (pre ++ OpWrite :: post ++ [x]) with (pre ++ (OpWrite :: post) ++ [x]) in Heq.
    rewrite app_assoc in Heq. apply app_inj_tail in Heq. destruct Heq as [Heq _].
    exact (Hl pre post Heq).
Qed.

(** appending events that are neither a read nor a write *)
Lemma disciplined_silent s s' evs :
  disciplined s -> silent evs ->
  trace s' = trace s ++ evs -> pending s' = None ->
  disciplined s'.
Proof.
  intros (Hw & Hn & _) Hs Ht Hp. unfold disciplined.
  rewrite Ht, io_events_app, (silent_io_events evs Hs), app_nil_r, Hp.
  split; [exact Hw|]. split; [apply Forall_app; split; [exact Hn|now apply silent_nonempty]|].
  split; discriminate.
Qed.

Lemma disciplined_step s i s' :
  disciplined s -> session_step s i = Some s' -> disciplined s'.
Proof.
  intros Hd Hstep. pose proof Hd as (Hw & Hn & Hrd & Hwr).
  destruct i as [data err|n err|]; simpl in Hstep.
  - destruct (pending s) as [[|]|] eqn:Hp; try discriminate.
    destruct (Hrd eq_refl) as (Hc & Hres & Hlast).
    injection Hstep as <-. unfold resume. destruct (failed err) eqn:Hf.
    + eapply (disciplined_silent s); [exact Hd|apply on_failed_events_silent| |].
      * rewrite on_failed_closed_form. reflexivity.
      * rewrite on_failed_closed_form. reflexivity.
    + simpl. rewrite Hc. set (s2 := emit _ _).
      destruct (requestHandling_result s2 0) as (calls & more & Hq & Hpe & Hr & Hctl).
      destruct (requestHandling s2 0) as [s3 ctl]. simpl in *.
      assert (Hsil : silent ([Log DEBUG "readed: %1.3fKb"] ++ calls)).
      { apply Forall_app. split; [repeat constructor|now apply quiet_silent]. }
      destruct ctl.
      * destruct Hctl as (Htr & Hs & Hco). rewrite <- app_assoc in Htr.
        assert (Hio : io_events (trace s3) = io_events (trace s)).
        { now rewrite Htr, io_events_app, (silent_io_events _ Hsil), app_nil_r. }
        assert (Hn3 : Forall nonempty_write (trace s3)).
        { rewrite Htr. apply Forall_app. split; [exact Hn|now apply silent_nonempty]. }
        unfold after_handling, disciplined. rewrite Hres in Hr. simpl in Hr.
        destruct (resBuffer_ s3) as [|c r] eqn:Er; simpl;
          rewrite io_events_app, Hio; simpl.
        -- split; [now apply writes_follow_reads_snoc_read|].
           split; [apply Forall_app; split; [exact Hn3|repeat constructor]|].
           split; [intros _; rewrite last_snoc; auto|discriminate].
        -- split; [now apply writes_follow_reads_snoc_write|].
           split; [apply Forall_app; split;
                     [exact Hn3|constructor; [simpl; rewrite ?Er; discriminate|constructor]]|].
           split; [discriminate|]. intros _. rewrite ?Er. split; [reflexivity|discriminate].
      * destruct Hctl as (view & e & k & He & Hne & Htr & Hs & Hco).
        eapply (disciplined_silent s _ (([Log DEBUG "readed: %1.3fKb"] ++ calls)
                   ++ [HandleCall view e k] ++ on_failed_events (socket_ s) e)).
        -- exact Hd.
        -- apply Forall_app. split; [exact Hsil|].
           apply Forall_app. split; [repeat constructor|apply on_failed_events_silent].
        -- rewrite Htr. now rewrite <- !app_assoc.
        -- exact Hpe.
  - destruct (pending s) as [[|]|] eqn:Hp; try discriminate.
    destruct (Hwr eq_refl) as (Hc & Hres).
    injection Hstep as <-. unfold resume. destruct (failed err) eqn:Hf.
    + eapply (disciplined_silent s); [exact Hd|apply on_failed_events_silent| |].
      * rewrite on_failed_closed_form. reflexivity.
      * rewrite on_failed_closed_form. reflexivity.
    + simpl. rewrite Hc. unfold disciplined. simpl.
      rewrite !io_events_app. simpl. rewrite app_nil_r.
      split; [now apply writes_follow_reads_snoc_read|].
      split; [repeat (apply Forall_app; split); auto; repeat constructor|].
      split; [intros _; rewrite last_snoc; auto|discriminate].
  - injection Hstep as <-. rewrite close_closed_form. unfold disciplined. simpl.
    match goal with |- context [trace s ++ ?e] => set (evs := e) end.
    assert (Hsil : silent evs).
    { subst evs.
      destruct (is_open (socket_ s)), (failed (cancel_err (socket_ s))); repeat constructor. }
    clearbody evs.
    rewrite io_events_app, (silent_io_events _ Hsil), app_nil_r.
    split; [exact Hw|].
    split; [apply Forall_app; split; [exact Hn|now apply silent_nonempty]|].
    split; assumption.
Qed.

Lemma disciplined_run inputs : forall s s',
  disciplined s -> session_run s inputs = Some s' -> disciplined s'.
Proof.
  induction inputs as [|i inputs IH]; simpl; intros s s' Hd Hrun.
  - now injection Hrun as <-.
  - destruct (session_step s i) as [s1|] eqn:Hstep; [|discriminate].
    apply (IH s1 s'); [|exact Hrun]. eapply disciplined_step; eauto.
Qed.

Lemma start_disciplined (socket : Socket) (h : H) s1 :
  start (new_session socket h) = inr s1 -> disciplined s1.
Proof.
  intros Hstart.
  destruct (remote_endpoint socket) as [e|ep] eqn:Hre.
  { unfold start, new_session in Hstart. simpl in Hstart. rewrite Hre in Hstart.
    discriminate. }
  rewrite (start_closed_form socket h ep Hre) in Hstart.
  destruct (atSessionStart h ep) as [h' err]. cbv zeta in Hstart.
  destruct (failed err); injection Hstart as <-; unfold disciplined; simpl.
  - split; [intros [|[] pre] post Heq; discriminate|].
    split; [repeat constructor|]. split; discriminate.
  - split.
    { intros pre post Heq. destruct pre as [|x [|y pre]]; discriminate Heq. }
    split; [repeat constructor|]. split; [auto|discriminate].
Qed.

(** In every run of a started session, each write was issued directly
    behind a read, no write was issued with nothing to send, nothing is
    staged in [resBuffer_] while a read is outstanding, and [resBuffer_] is
    not empty while a write is. *)
Theorem session_io_discipline (socket : Socket) (h : H) s1 inputs s :
  start (new_session socket h) = inr s1 ->
  session_run s1 inputs = Some s ->
  writes_follow_reads (io_events (trace s)) /\
  Forall nonempty_write (trace s) /\
  (pending s = Some OpRead -> resBuffer_ s = []) /\
  (pending s = Some OpWrite -> resBuffer_ s <> []).
Proof.
  intros Hstart Hrun.
  destruct (disciplined_run inputs s1 s (start_disciplined socket h s1 Hstart) Hrun)
    as (Hw & Hn & Hrd & Hwr).
  split; [exact Hw|]. split; [exact Hn|].
  split; intros Hp; [apply (Hrd Hp)|apply (Hwr Hp)].
Qed.

End Discipline.

(** ** What stays in the inbound buffer *)
Section InboundBuffer.
Context {H : Type} `{AbstractRequestHandler H}.
Implicit Type s : Session H.

Lemma drop_drop_app (q pre data : bytes) k :
  q = drop k pre -> exists k', q ++ data = drop k' (pre ++ data).
Proof.
  intros ->. destruct (le_lt_dec k (length pre)) as [Hle|Hgt].
  - exists k. now rewrite drop_app_le.
  - exists (length pre). rewrite drop_app_length, drop_ge by lia. reflexivity.
Qed.

(** the loop only ever cuts bytes off the front of [reqBuffer_] *)
Lemma requestHandling_suffix s off :
  exists k, reqBuffer_ (requestHandling s off).1 = drop k (reqBuffer_ s).
Proof.
  remember (length (reqBuffer_ s) - off) as m eqn:Hm. revert s off Hm.
  induction m as [m IH] using lt_wf_ind. intros s off Hm.
  rewrite requestHandling_turn.
  destruct (handle (reqHandler_ s) (drop off (reqBuffer_ s)) 0) as [h' [[err out] n]].
  cbv zeta. destruct (failed err).
  - destruct (decide (err = PartialData)).
    + exists (erase_count off n). reflexivity.
    + exists 0. rewrite on_failed_closed_form. reflexivity.
  - destruct (whole_view_dec n (length (drop off (reqBuffer_ s)))) as [Hw|Hadv].
    + exists (length (reqBuffer_ s)). simpl. now rewrite drop_all.
    + rewrite length_drop in Hadv.
      destruct (IH (length (reqBuffer_ s) - (off + n)) ltac:(lia)
                   (handled s off h' err out n) (off + n) eq_refl) as (k & Hk).
      exists k. exact Hk.
Qed.

Lemma resume_suffix s err n :
  exists k, reqBuffer_ (resume s err n) = drop k (reqBuffer_ s).
Proof.
  unfold resume. destruct (failed err).
  - exists 0. rewrite on_failed_closed_form. reflexivity.
  - destruct (coro s); try (exists 0; reflexivity).
    set (s2 := emit _ s).
    destruct (requestHandling_suffix s2 0) as (k & Hk).
    destruct (requestHandling s2 0) as [s3 []]; simpl in Hk; exists k.
    + unfold after_handling. destruct (resBuffer_ s3); exact Hk.
    + exact Hk.
Qed.

Lemma session_run_suffix inputs : forall s s' pre,
  session_run s inputs = Some s' ->
  (exists k, reqBuffer_ s = drop k pre) ->
  exists k, reqBuffer_ s' = drop k (pre ++ received inputs).
Proof.
  induction inputs as [|i inputs IH]; simpl; intros s s' pre Hrun (k & Hk).
  - injection Hrun as <-. exists k. now rewrite app_nil_r.
  - destruct (session_step s i) as [s1|] eqn:Hstep; [|discriminate].
    destruct i as [data err|n err|]; simpl in Hstep.
    + destruct (pending s) as [[|]|]; try discriminate. injection Hstep as <-.
      rewrite app_assoc. apply (IH _ s' _ Hrun).
      destruct (resume_suffix
                  (set_reqBuffer (reqBuffer_ s ++ data) (set_pending None s)) err
                  (length data)) as (j & ->).
      simpl. destruct (drop_drop_app (reqBuffer_ s) pre data k Hk) as (k' & ->).
      exists (k' + j). apply drop_drop.
    + destruct (pending s) as [[|]|]; try discriminate. injection Hstep as <-.
      apply (IH _ s' _ Hrun).
      destruct (resume_suffix
                  (set_resBuffer (drop n (resBuffer_ s)) (set_pending None s)) err n)
        as (j & ->).
      simpl. rewrite Hk. exists (k + j). apply drop_drop.
    + injection Hstep as <-. apply (IH _ s' _ Hrun).
      exists k. rewrite close_closed_form. exact Hk.
Qed.

(** Whatever the handler does, what a session holds in [reqBuffer_] is a
    tail of the bytes its reads have brought in: bytes are only ever cut off
    the front, none is invented, changed or put back. *)
Theorem inbound_buffer_is_tail_of_received s inputs s' :
  reqBuffer_ s = [] ->
  session_run s inputs = Some s' ->
  exists k, reqBuffer_ s' = drop k (received inputs).
Proof.
  intros Hq Hrun.
  apply (session_run_suffix inputs s s' [] Hrun). exists 0. exact Hq.
Qed.

(** the step of a completion that carries an error *)
Lemma failed_completion_step s err :
  failed err = true ->
  (pending s = Some OpRead ->
   forall data,
     session_step s (ReadDone data err) =
     Some (mkSession (set_open false (socket_ s)) (coro s) None
                     (atSessionClose (reqHandler_ s))
                     (reqBuffer_ s ++ data) (resBuffer_ s)
                     (trace s ++ on_failed_events (socket_ s) err))) /\
  (pending s = Some OpWrite ->
   forall n,
     session_step s (WriteDone n err) =
     Some (mkSession (set_open false (socket_ s)) (coro s) None
                     (atSessionClose (reqHandler_ s))
                     (reqBuffer_ s) (drop n (resBuffer_ s))
                     (trace s ++ on_failed_events (socket_ s) err))).
Proof.
  intros Hf. split.
  - intros Hp data. simpl. rewrite Hp. unfold resume. rewrite Hf.
    now rewrite on_failed_closed_form.
  - intros Hp n. simpl. rewrite Hp. unfold resume. rewrite Hf.
    now rewrite on_failed_closed_form.
Qed.

(** A read or a write that completes with an error ends the session on the
    spot: the socket is closed, nothing is outstanding, the handler gets its
    [atSessionClose] but no [handle] for the bytes that came with the error,
    the buffers are left as they are and nothing is written.  End of stream
    and cancellation are not logged as errors when shutdown and close
    succeed; every other error is. *)
Theorem transport_error_ends_session s err :
  failed err = true ->
  (pending s = Some OpRead ->
   forall data,
     session_step s (ReadDone data err) =
     Some (mkSession (set_open false (socket_ s)) (coro s) None
                     (atSessionClose (reqHandler_ s))
                     (reqBuffer_ s ++ data) (resBuffer_ s)
                     (trace s ++ on_failed_events (socket_ s) err))) /\
  (pending s = Some OpWrite ->
   forall n,
     session_step s (WriteDone n err) =
     Some (mkSession (set_open false (socket_ s)) (coro s) None
                     (atSessionClose (reqHandler_ s))
                     (reqBuffer_ s) (drop n (resBuffer_ s))
                     (trace s ++ on_failed_events (socket_ s) err))) /\
  written (on_failed_events (socket_ s) err) = [] /\
  Forall (fun e => forall view st n, e <> HandleCall view st n)
         (on_failed_events (socket_ s) err) /\
  (shutdown_err (socket_ s) = Success -> close_err (socket_ s) = Success ->
   err = Eof \/ err = OperationAborted ->
   Forall (fun e => forall msg, e <> Log ERROR msg /\ e <> Log WARNING msg)
          (on_failed_events (socket_ s) err)) /\
  (err <> Eof -> err <> OperationAborted ->
   In (Log ERROR (message err)) (on_failed_events (socket_ s) err)).
Proof.
  intros Hf. destruct (failed_completion_step s err Hf) as (Hrd & Hwr).
  split; [exact Hrd|]. split; [exact Hwr|]. split; [|split; [|split]].
  - apply quiet_on_failed_events.
  - unfold on_failed_events, atClose_events.
    destruct err, (failed (shutdown_err (socket_ s))), (failed (close_err (socket_ s)));
      simpl; repeat (constructor; [intros; discriminate|]); constructor.
  - intros Hsh Hcl Herr. unfold on_failed_events, atClose_events. rewrite Hsh, Hcl.
    destruct Herr as [->| ->]; simpl;
      repeat (constructor; [intros; split; discriminate|]); constructor.
  - intros He Ha. unfold on_failed_events.
    destruct err; try discriminate; try contradiction; now left.
Qed.

(** [Session::close] on a session under way only cancels: the socket stays
    open and the operation outstanding.  When that operation then completes
    as cancelled, the session runs its close sequence, once, and is over. *)
Theorem close_then_cancelled_completion s :
  under_way s ->
  is_open (socket_ (close s)) = true /\
  pending (close s) = pending s /\
  In SocketCancel (trace (close s)) /\
  exists i s',
    (i = ReadDone [] OperationAborted \/ i = WriteDone 0 OperationAborted) /\
    session_run s [CloseCall; i] = Some s' /\
    over s' /\
    trace s' = trace (close s) ++ on_failed_events (socket_ s) OperationAborted.
Proof.
  intros Hu. pose proof Hu as (Ho & Hpc & Ht).
  assert (Hcl := close_closed_form s). rewrite Ho in Hcl.
  split; [now rewrite Hcl|]. split; [now rewrite Hcl|].
  split; [rewrite Hcl; simpl; apply in_or_app; right; simpl; auto|].
  assert (Hu' : under_way (close s)).
  { destruct (under_way_step s CloseCall (close s) Hu eq_refl) as [Hu'|(Hc & _)];
      [exact Hu'|]. rewrite Hcl in Hc. simpl in Hc. congruence. }
  assert (Hsock : socket_ (close s) = socket_ s) by now rewrite Hcl.
  assert (Hend : forall i s',
             session_step (close s) i = Some s' -> pending s' = None ->
             trace s' = trace (close s) ++ on_failed_events (socket_ (close s)) OperationAborted ->
             session_run s [CloseCall; i] = Some s' /\ over s' /\
             trace s' = trace (close s) ++ on_failed_events (socket_ s) OperationAborted).
  { intros i s' Hstep Hnone Htr.
    split; [simpl; simpl in Hstep; now rewrite Hstep|].
    split; [|now rewrite <- Hsock].
    destruct (under_way_step (close s) i s' Hu' Hstep) as [(_ & Hbad & _)|Hov];
      [|exact Hov].
    rewrite Hnone in Hbad. destruct Hbad as [[Hbad _]|[Hbad _]]; discriminate. }
  destruct (failed_completion_step (close s) OperationAborted eq_refl) as (Hrd & Hwr).
  destruct Hpc as [[Hp Hc]|[Hp Hc]].
  - assert (Hp' : pending (close s) = Some OpRead) by (rewrite Hcl; exact Hp).
    exists (ReadDone [] OperationAborted). eexists. split; [now left|].
    apply Hend; [apply (Hrd Hp' [])|reflexivity|reflexivity].
  - assert (Hp' : pending (close s) = Some OpWrite) by (rewrite Hcl; exact Hp).
    exists (WriteDone 0 OperationAborted). eexists. split; [now right|].
    apply Hend; [apply (Hwr Hp' 0)|reflexivity|reflexivity].
Qed.

End InboundBuffer.

(** ** The server and its live set *)
Section ServerFacts.
Context {F H : Type} `{AbstractRequestHandler H} `{AbstractRequestHandlerFactory F H}.
Implicit Type s : Session H.
Implicit Type srv : ServerImplStream F H.

(** [start] returns whenever the peer address resolves *)
Lemma start_returns (socket : Socket) (h : H) ep :
  remote_endpoint socket = inr ep -> exists s1, start (new_session socket h) = inr s1.
Proof.
  intros Hre. rewrite (start_closed_form socket h ep Hre).
  destruct (atSessionStart h ep) as [h' err]. cbv zeta. destruct (failed err); eauto.
Qed.

(** and throws what [remote_endpoint()] throws when it does not *)
Lemma start_throws (socket : Socket) (h : H) e :
  remote_endpoint socket = inl e -> start (new_session socket h) = inl e.
Proof. intros Hre. unfold start, new_session. simpl. now rewrite Hre. Qed.

(** the three ways out of the [try] block *)
Lemma accept_try_cases srv socket :
  (exists e, remote_endpoint socket = inl e /\ accept_try srv socket = (srv, Some e)) \/
  (exists e srv1 ep,
      remote_endpoint socket = inr ep /\
      accept_try srv socket = (srv1, Some e) /\
      heap srv1 = heap srv /\
      sessions_ srv1 = filter (fun p => open_at srv p = true) (sessions_ srv) /\
      accept_coro srv1 = accept_coro srv /\ accepting srv1 = accepting srv) \/
  (exists ep h s_new srv1,
      remote_endpoint socket = inr ep /\
      (makeRequestHandler (reqHandlerFactory_ srv)).2 = inr h /\
      start (new_session socket h) = inr s_new /\
      accept_try srv socket = (srv1, None) /\
      heap srv1 = heap srv ++ [s_new] /\
      sessions_ srv1 =
        filter (fun p => open_at srv p = true) (sessions_ srv) ++ [length (heap srv)] /\
      reqHandlerFactory_ srv1 = (makeRequestHandler (reqHandlerFactory_ srv)).1 /\
      accept_coro srv1 = accept_coro srv /\ accepting srv1 = accepting srv /\
      server_trace srv1 =
        server_trace srv ++ [Log DEBUG "accept connection from: %1%";
                             Log DEBUG "sessions opened: %1%"]).
Proof.
  unfold accept_try. destruct (remote_endpoint socket) as [e|ep] eqn:Hre.
  - left. eauto.
  - right. cbn [server_emit set_sessions reqHandlerFactory_ sessions_ heap].
    destruct (makeRequestHandler (reqHandlerFactory_ srv)) as [f' [e|h]] eqn:Hmk.
    + left. eexists _, _, ep. split; [reflexivity|]. split; [reflexivity|]. simpl. auto.
    + destruct (start_returns socket h ep Hre) as (s_new & Hstart).
      right. exists ep, h, s_new. rewrite Hstart. eexists. split; [reflexivity|].
      split; [reflexivity|]. split; [reflexivity|]. split; [reflexivity|].
      simpl. rewrite <- app_assoc. auto 10.
Qed.

(** An accepted connection whose peer address resolves, with a factory
    that delivers: the live set is pruned of its closed sessions (the open
    ones stay, in order), the new session is started and put behind them,
    no other session object is touched, and the next accept is issued. *)
Theorem accept_adds_started_session srv socket ep h :
  accepting srv = true ->
  accept_coro srv = AcceptYield ->
  remote_endpoint socket = inr ep ->
  (makeRequestHandler (reqHandlerFactory_ srv)).2 = inr h ->
  exists s_new srv',
    start (new_session socket h) = inr s_new /\
    server_step srv (AcceptDone Success socket) = Some srv' /\
    heap srv' = heap srv ++ [s_new] /\
    sessions_ srv' =
      filter (fun p => open_at srv p = true) (sessions_ srv) ++ [length (heap srv)] /\
    (forall p, p ∈ sessions_ srv' <->
               (p ∈ sessions_ srv /\ open_at srv p = true) \/ p = length (heap srv)) /\
    (forall p s, heap srv !! p = Some s -> heap srv' !! p = Some s) /\
    heap srv' !! length (heap srv) = Some s_new /\
    accepting srv' = true /\ accept_coro srv' = AcceptYield /\
    last (server_trace srv') = Some AsyncAccept.
Proof.
  intros Ha Hc Hre Hmk.
  destruct srv as [co ac f l hp tr]. cbn [accepting accept_coro] in Ha, Hc. subst co ac.
  cbn [reqHandlerFactory_ heap sessions_] in *.
  set (srv1 := server_emit (Log DEBUG "accept new connection")
                 (mkServer AcceptYield false f l hp tr)).
  destruct (accept_try_cases srv1 socket)
    as [(e & Hbad & _)|[(e & srv2 & ep0 & _ & Htry & _)|
        (ep' & h' & s_new & srv2 & _ & Hmk' & Hstart & Htry & Hheap & Hsess & _ & Hco & Hacc & _)]].
  - congruence.
  - exfalso. revert Htry. unfold accept_try. rewrite Hre.
    cbn [server_emit set_sessions reqHandlerFactory_ sessions_ heap srv1].
    destruct (makeRequestHandler f) as [f' [e'|h0]]; [discriminate Hmk|].
    destruct (start_returns socket h0 ep Hre) as (s0 & ->). discriminate.
  - change (reqHandlerFactory_ srv1) with f in Hmk'.
    rewrite Hmk in Hmk'. injection Hmk' as <-.
    exists s_new. eexists. split; [exact Hstart|].
    split.
    { unfold server_step. cbn [accepting]. unfold accept_resume.
      cbn [failed accept_coro reqHandlerFactory_ sessions_ heap server_trace].
      cbv zeta. fold srv1. rewrite Htry. reflexivity. }
    change (heap srv1) with hp in Hheap, Hsess.
    change (sessions_ srv1) with l in Hsess.
    change (open_at srv1) with (open_at (mkServer AcceptYield true f l hp tr)) in Hsess.
    cbn [yield_async_accept server_emit heap sessions_ accepting accept_coro server_trace].
    split; [exact Hheap|]. split; [exact Hsess|].
    split.
    { intros p. rewrite Hsess, elem_of_app, list_elem_of_filter, list_elem_of_singleton.
      tauto. }
    split; [intros p s Hp; rewrite Hheap; now apply lookup_app_l_Some|].
    split; [rewrite Hheap; apply list_lookup_middle; reflexivity|].
    split; [reflexivity|]. split; [reflexivity|].
    now rewrite last_snoc.
Qed.

(** An exception in the handling of an accepted connection leaves no
    session behind: no session object is added, the live set gets no new
    entry, and when it is the peer address that cannot be resolved the live
    set is not even pruned and the factory is not asked. *)
Theorem failed_accept_handling_adds_nothing srv socket e :
  accepting srv = true ->
  accept_coro srv = AcceptYield ->
  (accept_try (server_emit (Log DEBUG "accept new connection")
                 (mkServer (accept_coro srv) false (reqHandlerFactory_ srv)
                           (sessions_ srv) (heap srv) (server_trace srv))) socket).2
    = Some e ->
  exists srv',
    server_step srv (AcceptDone Success socket) = Some srv' /\
    heap srv' = heap srv /\
    (forall p, p ∈ sessions_ srv' -> p ∈ sessions_ srv) /\
    (forall e', remote_endpoint socket = inl e' ->
                e' = e /\ sessions_ srv' = sessions_ srv /\
                reqHandlerFactory_ srv' = reqHandlerFactory_ srv) /\
    accepting srv' = true.
Proof.
  intros Ha Hc Hexn.
  destruct srv as [co ac f l hp tr]. cbn [accepting accept_coro] in Ha, Hc. subst co ac.
  cbn [accept_coro reqHandlerFactory_ heap sessions_ server_trace] in *.
  set (srv1 := server_emit _ _) in Hexn.
  eexists. split.
  { unfold server_step. cbn [accepting]. unfold accept_resume.
    cbn [failed accept_coro reqHandlerFactory_ sessions_ heap server_trace].
    cbv zeta. fold srv1. reflexivity. }
  destruct (accept_try_cases srv1 socket)
    as [(e0 & Hre & Htry)|[(e0 & srv2 & ep0 & Hre & Htry & Hheap & Hsess & _)|
        (ep' & h' & s_new & srv2 & _ & _ & _ & Htry & _)]];
    rewrite Htry in Hexn |- *; simpl in Hexn; [| |discriminate]; injection Hexn as ->.
  - simpl. split; [reflexivity|]. split; [auto|]. split; [|reflexivity].
    intros e' He'. rewrite Hre in He'. injection He' as <-. auto.
  - simpl. split; [exact Hheap|].
    change (sessions_ srv1) with l in Hsess.
    split.
    { intros p Hp. rewrite Hsess in Hp. now apply list_elem_of_filter in Hp. }
    split; [|reflexivity].
    intros e' He'. congruence.
Qed.

End ServerFacts.

(** ** Stopping the server *)
Section ServerStop.
Context {F H : Type} `{AbstractRequestHandler H} `{AbstractRequestHandlerFactory F H}.
Implicit Type s : Session H.
Implicit Type srv : ServerImplStream F H.

Lemma close_each_length l :
  forall hp : list (Session H), length (close_each l hp) = length hp.
Proof.
  induction l as [|p l IH]; intros hp; [reflexivity|].
  unfold close_each in *. simpl. rewrite IH.
  destruct (hp !! p) as [s|]; [|reflexivity].
  destruct (isOpen s); [apply length_insert|reflexivity].
Qed.

Lemma close_each_Forall (P : Session H -> Prop) l :
  (forall s, P s -> P (close s)) ->
  forall hp, Forall P hp -> Forall P (close_each l hp).
Proof.
  intros Hclose. induction l as [|p l IH]; intros hp Hhp; [exact Hhp|].
  unfold close_each in *. simpl. apply IH.
  destruct (hp !! p) as [s|] eqn:Hp; [|exact Hhp].
  destruct (isOpen s); [|exact Hhp].
  apply Forall_insert; [exact Hhp|]. apply Hclose.
  rewrite Forall_lookup in Hhp. exact (Hhp p s Hp).
Qed.

Lemma close_each_lookup l : forall (hp : list (Session H)) q,
  NoDup l ->
  close_each l hp !! q =
  (if decide (q ∈ l) then close_if_open else id) <$> hp !! q.
Proof.
  induction l as [|p l IH]; intros hp q Hnd.
  - simpl. destruct (decide (q ∈ [])) as [Hin|_]; [now apply elem_of_nil in Hin|].
    now destruct (hp !! q).
  - apply NoDup_cons in Hnd. destruct Hnd as [Hp Hnd].
    unfold close_each in *. simpl. rewrite (IH _ q Hnd).
    set (hp' := match hp !! p with
                | Some s => if isOpen s then <[p:=close s]> hp else hp
                | None => hp
                end).
    assert (Hhp' : forall q', hp' !! q' =
                     (if decide (q' = p) then close_if_open else id) <$> hp !! q').
    { intros q'. subst hp'. destruct (decide (q' = p)) as [->|Hne].
      - destruct (hp !! p) as [s|] eqn:Hs; [|now rewrite Hs].
        unfold close_if_open. destruct (isOpen s) eqn:Ho.
        + rewrite list_lookup_insert_eq by (eapply lookup_lt_Some; eauto).
          simpl. now rewrite Ho.
        + rewrite Hs. simpl. now rewrite Ho.
      - destruct (hp !! p) as [s|] eqn:Hs.
        + destruct (isOpen s); [rewrite list_lookup_insert_ne by auto|];
            now destruct (hp !! q').
        + now destruct (hp !! q'). }
    rewrite Hhp'.
    destruct (decide (q ∈ l)) as [Hin|Hnin].
    + destruct (decide (q = p)) as [->|Hne]; [contradiction|].
      destruct (decide (q ∈ p :: l)) as [_|Hbad]; [|exfalso; apply Hbad; now right].
      now destruct (hp !! q).
    + destruct (decide (q = p)) as [->|Hne].
      * destruct (decide (p ∈ p :: l)) as [_|Hbad]; [|exfalso; apply Hbad; now left].
        now destruct (hp !! p).
      * destruct (decide (q ∈ p :: l)) as [Hbad|_].
        { apply elem_of_cons in Hbad. destruct Hbad; contradiction. }
        now destruct (hp !! q).
Qed.

Lemma stop_closed_form srv :
  stop srv =
  mkServer (accept_coro srv) (accepting srv) (reqHandlerFactory_ srv) []
           (close_each (sessions_ srv) (heap srv))
           (server_trace srv ++ [Log TRACE "stop accepting"; AcceptorCancel;
                                 Log TRACE "close all sessions"]).
Proof.
  destruct srv as [co ac f l hp tr].
  unfold stop, closeAllSessions, stopAccepting, close_each.
  cbv [set_sessions set_heap server_emit accept_coro accepting reqHandlerFactory_
       sessions_ heap server_trace].
  now rewrite <- !app_assoc.
Qed.



(** After [Server::stop], when the cancelled accept completes, the accept
    loop ends without an error in the log, and from then on no accept can
    complete: no connection is accepted any more. *)
Theorem stop_ends_accept_loop srv socket :
  accepting srv = true ->
  exists srv',
    server_run srv [StopCall; AcceptDone OperationAborted socket] = Some srv' /\
    accepting srv' = false /\
    (forall err socket', server_step srv' (AcceptDone err socket') = None) /\
    heap srv' = heap (stop srv) /\ sessions_ srv' = [] /\
    server_trace srv' =
      server_trace srv ++ [Log TRACE "stop accepting"; AcceptorCancel;
                           Log TRACE "close all sessions";
                           Log DEBUG "accepting canceled";
                           Log DEBUG "break the server coroutine"].
Proof.
  intros Ha. eexists. cbn [server_run server_step]. rewrite stop_closed_form.
  cbn [accepting]. rewrite Ha. split; [reflexivity|].
  simpl. split; [reflexivity|]. split; [reflexivity|]. split; [reflexivity|].
  split; [reflexivity|]. now rewrite <- !app_assoc.
Qed.

(** After [Server::stop], a session that was under way, when its cancelled
    operation completes, runs its close sequence and is over. *)
Theorem stop_then_cancelled_session_is_over srv p s :
  NoDup (sessions_ srv) ->
  heap srv !! p = Some s ->
  under_way s ->
  exists i srv' s',
    (i = ReadDone [] OperationAborted \/ i = WriteDone 0 OperationAborted) /\
    server_run srv [StopCall; SessionDone p i] = Some srv' /\
    heap srv' !! p = Some s' /\ over s' /\
    (forall q, q <> p -> heap srv' !! q = heap (stop srv) !! q).
Proof.
  intros Hnd Hp Hu.
  assert (Hlook : heap (stop srv) !! p =
                  (if decide (p ∈ sessions_ srv) then close_if_open else id)
                    <$> heap srv !! p).
  { rewrite stop_closed_form. apply (close_each_lookup _ _ _ Hnd). }
  rewrite Hp in Hlook.
  change (heap (stop srv) !! p =
          Some ((if decide (p ∈ sessions_ srv) then close_if_open else id) s)) in Hlook.
  set (s1 := (if decide (p ∈ sessions_ srv) then close_if_open else id) s) in Hlook.
  assert (Hu1 : under_way s1).
  { subst s1. destruct (decide (p ∈ sessions_ srv)); [|exact Hu].
    unfold close_if_open. destruct (isOpen s); [|exact Hu].
    destruct (under_way_step s CloseCall (close s) Hu eq_refl) as [Hu'|(Hc & _)];
      [exact Hu'|].
    destruct Hu as (Ho & _). rewrite close_closed_form in Hc. simpl in Hc. congruence. }
  assert (Hover : forall i s', session_step s1 i = Some s' -> pending s' = None -> over s').
  { intros i s' Hstep Hnone.
    destruct (under_way_step s1 i s' Hu1 Hstep) as [(_ & Hbad & _)|Hov]; [|exact Hov].
    rewrite Hnone in Hbad. destruct Hbad as [[Hbad _]|[Hbad _]]; discriminate. }
  destruct (failed_completion_step s1 OperationAborted eq_refl) as (Hrd & Hwr).
  assert (Hlt : p < length (heap (stop srv))) by (eapply lookup_lt_Some; eauto).
  assert (Hrun : forall i s',
             i <> CloseCall -> session_step s1 i = Some s' ->
             server_run srv [StopCall; SessionDone p i] =
             Some (set_heap (<[p := s']> (heap (stop srv))) (stop srv))).
  { intros i s' Hi Hstep.
    change (server_run srv [StopCall; SessionDone p i])
      with (match server_step (stop srv) (SessionDone p i) with
            | Some srv' => Some srv'
            | None => None
            end).
    unfold server_step. rewrite Hlook.
    destruct i; [| |contradiction]; now rewrite Hstep. }
  destruct Hu1 as (_ & [[Hp1 _]|[Hp1 _]] & _).
  - exists (ReadDone [] OperationAborted). eexists _, _. split; [now left|].
    specialize (Hrd Hp1 []).
    split; [apply (Hrun (ReadDone [] OperationAborted) _ ltac:(discriminate) Hrd)|].
    cbn [heap set_heap].
    split; [now apply list_lookup_insert_eq|].
    split; [apply (Hover _ _ Hrd); reflexivity|].
    intros q Hq. now apply list_lookup_insert_ne.
  - exists (WriteDone 0 OperationAborted). eexists _, _. split; [now right|].
    specialize (Hwr Hp1 0).
    split; [apply (Hrun (WriteDone 0 OperationAborted) _ ltac:(discriminate) Hwr)|].
    cbn [heap set_heap].
    split; [now apply list_lookup_insert_eq|].
    split; [apply (Hover _ _ Hwr); reflexivity|].
    intros q Hq. now apply list_lookup_insert_ne.
Qed.

End ServerStop.

(** ** Invariants of a running server *)
Section ServerInvariants.
Context {F H : Type} `{AbstractRequestHandler H} `{AbstractRequestHandlerFactory F H}.
Implicit Type s : Session H.
Implicit Type srv : ServerImplStream F H.

Lemma live_set_pruned srv :
  live_set_ok srv ->
  NoDup (filter (fun p => open_at srv p = true) (sessions_ srv)) /\
  Forall (fun p => p < length (heap srv))
         (filter (fun p => open_at srv p = true) (sessions_ srv)).
Proof.
  intros (Hnd & Hall). split; [now apply NoDup_filter|].
  rewrite Forall_forall in *. intros p Hp. apply Hall.
  now apply list_elem_of_filter in Hp.
Qed.

Lemma accept_try_live srv socket :
  live_set_ok srv -> live_set_ok (accept_try srv socket).1.
Proof.
  intros Hok. destruct (live_set_pruned srv Hok) as (Hnd & Hall).
  destruct (accept_try_cases srv socket)
    as [(e & _ & ->)|[(e & srv1 & ep & _ & -> & Hheap & Hsess & _)|
        (ep & h & s_new & srv1 & _ & _ & _ & -> & Hheap & Hsess & _)]]; simpl.
  - exact Hok.
  - unfold live_set_ok. rewrite Hheap, Hsess. auto.
  - unfold live_set_ok. rewrite Hheap, Hsess, length_app. simpl. split.
    + apply NoDup_app. split; [exact Hnd|]. split; [|apply NoDup_singleton].
      intros p Hp Hp'. apply list_elem_of_singleton in Hp'. subst p.
      rewrite Forall_forall in Hall. specialize (Hall _ Hp). lia.
    + apply Forall_app. split.
      * eapply Forall_impl; [exact Hall|]. intros p Hp. simpl in Hp. lia.
      * repeat constructor. lia.
Qed.

Lemma live_set_ok_step srv i srv' :
  live_set_ok srv -> server_step srv i = Some srv' -> live_set_ok srv'.
Proof.
  intros Hok Hstep. destruct i as [err socket|p i|]; simpl in Hstep.
  - destruct (accepting srv); [|discriminate]. injection Hstep as <-.
    unfold accept_resume. destruct (failed err).
    + destruct err; exact Hok.
    + cbn [accept_coro]. destruct (accept_coro srv); try exact Hok.
      set (srv1 := server_emit _ _).
      assert (Hok1 : live_set_ok srv1) by exact Hok.
      pose proof (accept_try_live srv1 socket Hok1) as Hlive.
      destruct (accept_try srv1 socket) as [srv2 [e|]]; exact Hlive.
  - destruct i as [data err|n err|]; [| |discriminate];
      (destruct (heap srv !! p) as [s|]; [|discriminate];
       destruct (session_step s _) as [s'|]; [|discriminate];
       injection Hstep as <-; destruct Hok as (Hnd & Hall);
       split; [exact Hnd|]; simpl; now rewrite length_insert).
  - injection Hstep as <-. rewrite stop_closed_form. split; simpl; constructor.
Qed.

Lemma live_set_ok_run inputs : forall srv srv',
  live_set_ok srv -> server_run srv inputs = Some srv' -> live_set_ok srv'.
Proof.
  induction inputs as [|i inputs IH]; simpl; intros srv srv' Hok Hrun.
  - now injection Hrun as <-.
  - destruct (server_step srv i) as [srv1|] eqn:Hstep; [|discriminate].
    apply (IH srv1 srv'); [|exact Hrun]. eapply live_set_ok_step; eauto.
Qed.

(** In every run of a server, whatever is accepted, completes or is
    stopped in whatever order, the live set holds only pointers to existing
    session objects and holds each of them at most once. *)
Theorem live_set_points_to_sessions (factory : F) inputs srv :
  server_run (asyncRun factory) inputs = Some srv ->
  NoDup (sessions_ srv) /\
  forall p, p ∈ sessions_ srv -> is_Some (heap srv !! p).
Proof.
  intros Hrun.
  assert (Hok : live_set_ok srv).
  { eapply live_set_ok_run; [|exact Hrun]. split; simpl; constructor. }
  destruct Hok as (Hnd & Hall). split; [exact Hnd|].
  intros p Hp. apply lookup_lt_is_Some. rewrite Forall_forall in Hall. auto.
Qed.

Lemma staged_step s i s' : staged s -> session_step s i = Some s' -> staged s'.
Proof.
  intros [Hu|[Ho|(socket & Hopen & Hr)]] Hstep.
  - destruct (under_way_step s i s' Hu Hstep); [now left|right; now left].
  - right. left. eapply over_step; eauto.
  - right. right. exists socket. split; [exact Hopen|].
    now destruct (refused_step socket s i s' Hr Hstep).
Qed.

Lemma start_staged (socket : Socket) (h : H) s1 :
  is_open socket = true -> start (new_session socket h) = inr s1 -> staged s1.
Proof.
  intros Hopen Hstart.
  destruct (remote_endpoint socket) as [e|ep] eqn:Hre.
  { rewrite (start_throws socket h e Hre) in Hstart. discriminate. }
  rewrite (start_closed_form socket h ep Hre) in Hstart.
  destruct (atSessionStart h ep) as [h' err]. cbv zeta in Hstart.
  destruct (failed err); injection Hstart as <-.
  - right. right. exists socket. split; [exact Hopen|].
    unfold refused. simpl. repeat split; auto. repeat constructor.
  - left. unfold under_way. simpl. auto.
Qed.

Lemma staged_server_step srv i srv' :
  accepted_open i ->
  Forall staged (heap srv) -> server_step srv i = Some srv' -> Forall staged (heap srv').
Proof.
  intros Hi Hall Hstep. destruct i as [err socket|p i|]; simpl in Hstep.
  - destruct (accepting srv); [|discriminate]. injection Hstep as <-.
    unfold accept_resume. destruct (failed err) eqn:Hf.
    + destruct err; exact Hall.
    + destruct err; try discriminate. simpl in Hi.
      cbn [accept_coro]. destruct (accept_coro srv); try exact Hall.
      set (srv1 := server_emit _ _).
      destruct (accept_try_cases srv1 socket)
        as [(e & _ & ->)|[(e & srv2 & ep & _ & -> & Hheap & _)|
            (ep & h & s_new & srv2 & _ & _ & Hstart & -> & Hheap & _)]]; simpl.
      * exact Hall.
      * rewrite Hheap. exact Hall.
      * rewrite Hheap. apply Forall_app. split; [exact Hall|].
        constructor; [|constructor]. now apply (start_staged socket h).
  - destruct i as [data err|n err|]; [| |discriminate];
      (destruct (heap srv !! p) as [s|] eqn:Hp; [|discriminate];
       destruct (session_step s _) as [s'|] eqn:Hs; [|discriminate];
       injection Hstep as <-; simpl;
       apply Forall_insert; [exact Hall|];
       eapply staged_step; [|exact Hs];
       rewrite Forall_lookup in Hall; exact (Hall p s Hp)).
  - injection Hstep as <-. rewrite stop_closed_form. simpl.
    apply close_each_Forall; [|exact Hall].
    intros s Hs. now apply (staged_step s CloseCall).
Qed.

Lemma staged_server_run inputs : forall srv srv',
  Forall accepted_open inputs ->
  Forall staged (heap srv) -> server_run srv inputs = Some srv' ->
  Forall staged (heap srv').
Proof.
  induction inputs as [|i inputs IH]; simpl; intros srv srv' Hin Hall Hrun.
  - now injection Hrun as <-.
  - destruct (server_step srv i) as [srv1|] eqn:Hstep; [|discriminate].
    apply Forall_cons in Hin. destruct Hin as [Hi Hin].
    apply (IH srv1 srv' Hin); [|exact Hrun]. eapply staged_server_step; eauto.
Qed.

(** In every run of a server in which each successful accept hands over an
    open socket, every session object, at every moment and whatever the
    order of completions and stops, has had its [atSessionStart] exactly
    once and either has an open socket and no close sequence yet, or a
    closed socket, nothing outstanding and exactly one close sequence:
    [atSessionClose], then the shutdown, then the close of the socket. *)
Theorem every_session_of_a_server_is_staged (factory : F) inputs srv p s :
  Forall accepted_open inputs ->
  server_run (asyncRun factory) inputs = Some srv ->
  heap srv !! p = Some s ->
  (is_open (socket_ s) = true /\ lifecycle_trace (trace s) = [LStart]) \/
  (is_open (socket_ s) = false /\ pending s = None /\
   lifecycle_trace (trace s) = [LStart; LClose; LShutdown; LSocketClose]).
Proof.
  intros Hin Hrun Hp.
  assert (Hall : Forall staged (heap srv)).
  { eapply staged_server_run; [exact Hin| |exact Hrun]. constructor. }
  rewrite Forall_lookup in Hall.
  destruct (Hall p s Hp) as [(Ho & _ & Ht)|[(Ho & Hpe & Ht)|(socket & Hopen & Hs & _ & _ & _ & Ht)]].
  - left. auto.
  - right. auto.
  - left. rewrite Hs. auto.
Qed.

End ServerInvariants.

(** ** What the builder makes of an endpoint string *)
Section BuildMore.
Context {address : Type} (make_address : bytes -> option address).
Context (listen : Builder.Endpoint (address := address) -> option exception).
Context {F H : Type} `{AbstractRequestHandler H} `{AbstractRequestHandlerFactory F H}.
Import Builder.

Lemma digit_value_le c : Regex.is_digit c = true -> (N_of_ascii c - 48 <= 9)%N.
Proof.
  unfold Regex.is_digit. cbv zeta. intros Hd. apply andb_true_iff in Hd.
  destruct Hd as [_ Hhi]. apply Nat.leb_le in Hhi.
  assert (Hn : nat_of_ascii c = N.to_nat (N_of_ascii c)) by reflexivity. lia.
Qed.

Lemma stoi_bound port : forall acc,
  Forall (fun c => Regex.is_digit c = true) port ->
  (fold_left (fun acc c => 10 * acc + (N_of_ascii c - 48)) port acc + 1
   <= (acc + 1) * 10 ^ N.of_nat (length port))%N.
Proof.
  induction port as [|c port IH]; intros acc Hd; simpl fold_left.
  - simpl. lia.
  - apply Forall_cons in Hd. destruct Hd as [Hc Hd].
    specialize (IH (10 * acc + (N_of_ascii c - 48))%N Hd).
    pose proof (digit_value_le c Hc) as Hle.
    replace (N.of_nat (length (c :: port))) with (N.succ (N.of_nat (length port)))
      by (simpl length; lia).
    rewrite N.pow_succ_r by lia.
    assert (Hpow : (0 < 10 ^ N.of_nat (length port))%N)
      by (apply N.neq_0_lt_0, N.pow_nonzero; lia).
    nia.
Qed.

Lemma no_colon_filter (l : bytes) :
  Forall (fun c => c <> ":"%char) l -> filter (fun c => c = ":"%char) l = [].
Proof.
  induction 1 as [|c l Hc _ IH]; [reflexivity|].
  rewrite filter_cons. destruct (decide (c = ":"%char)); [contradiction|exact IH].
Qed.

Lemma digits_no_colon (l : bytes) :
  Forall (fun c => Regex.is_digit c = true) l -> Forall (fun c => c <> ":"%char) l.
Proof.
  intros Hl. eapply Forall_impl; [exact Hl|]. intros c Hc ->. discriminate.
Qed.

(** Under Tcp, an endpoint string of the form [host:port] whose host
    [make_address] accepts always gets as far as the listening socket:
    [build] fails only if opening, binding or listening does, with that
    [system_error].  The string splits in one way only, the port handed on
    is the decimal value of the digits reduced modulo 65536, and that is the
    value itself when it is below 65536. *)
Theorem build_tcp_reaches_listen (bld : ServerBuilder (F := F)) factory host port addr :
  protocol_ bld = Tcp ->
  factory_ bld = Some factory ->
  host_port_shape (endpoint_ bld) host port ->
  make_address host = Some addr ->
  let endpoint := TcpEndpoint addr (to_port (stoi port)) in
  build (H := H) make_address listen bld =
    match listen endpoint with
    | Some e => ThrowSystemError e
    | None => Built (endpoint, new_server factory)
    end /\
  (forall host' port',
      host_port_shape (endpoint_ bld) host' port' -> host' = host /\ port' = port) /\
  (stoi port < 100000)%N /\
  (to_port (stoi port) < 65536)%N /\
  ((stoi port < 65536)%N -> to_port (stoi port) = stoi port).
Proof.
  intros Hproto Hf (Heq & Hne & Hh & Hlen & Hd) Ha endpoint.
  pose proof (BuilderFacts.regex_match_complete host port Hne Hh Hlen Hd) as Hm.
  split; [|split; [|split; [|split]]].
  - unfold build. rewrite Hf, Hproto, Heq, Hm. simpl. rewrite Ha. reflexivity.
  - intros host' port' (Heq' & Hne' & Hh' & Hlen' & Hd').
    pose proof (BuilderFacts.regex_match_complete host' port' Hne' Hh' Hlen' Hd') as Hm'.
    rewrite <- Heq' in Hm'. rewrite Heq, Hm in Hm'. now injection Hm' as <- <-.
  - pose proof (stoi_bound port 0%N Hd) as Hb. unfold stoi.
    assert (Hp : (10 ^ N.of_nat (length port) <= 10 ^ 5)%N)
      by (apply N.pow_le_mono_r; lia).
    change (10 ^ 5)%N with 100000%N in Hp. lia.
  - unfold to_port. apply N.mod_lt. discriminate.
  - intros Hsmall. unfold to_port. now apply N.mod_small.
Qed.

(** Under Tcp, an endpoint string that does not hold exactly one colon is
    refused with [std::invalid_argument]: a string without a colon (the
    empty one too) and any string with two colons or more, such as an IPv6
    literal with its port. *)
Theorem build_tcp_needs_one_colon (bld : ServerBuilder (F := F)) :
  protocol_ bld = Tcp ->
  factory_ bld <> None ->
  length (filter (fun c => c = ":"%char) (endpoint_ bld)) <> 1 ->
  build (H := H) make_address listen bld = ThrowInvalidArgument "invalid host or port".
Proof.
  intros Hproto Hf Hcount. unfold build. rewrite Hproto.
  destruct (factory_ bld) as [factory|]; [|contradiction].
  destruct (Regex.regex_match hostAndPortReg (endpoint_ bld)) as [pieces|] eqn:Hm;
    [|reflexivity].
  exfalso. apply BuilderFacts.regex_match_sound in Hm.
  destruct Hm as (host & port & _ & Heq & _ & Hh & _ & Hd). apply Hcount.
  rewrite Heq, filter_app, filter_cons, (no_colon_filter host Hh).
  destruct (decide (":"%char = ":"%char)); [|contradiction].
  now rewrite (no_colon_filter port (digits_no_colon port Hd)).
Qed.

End BuildMore.

(** ** How often the handler is called in a pass *)
Section PassLength.
Context {H : Type} `{AbstractRequestHandler H}.
Implicit Type s : Session H.

Lemma handle_calls_app evs1 evs2 :
  handle_calls (evs1 ++ evs2) = handle_calls evs1 + handle_calls evs2.
Proof. unfold handle_calls. now rewrite List.filter_app, length_app. Qed.

Lemma handle_calls_on_failed k err : handle_calls (on_failed_events k err) = 0.
Proof.
  unfold on_failed_events, atClose_events.
  destruct err, (failed (shutdown_err k)), (failed (close_err k)); reflexivity.
Qed.

Lemma no_view_on_failed k err (P : bytes -> Prop) :
  Forall (fun e => forall v st n, e = HandleCall v st n -> P v) (on_failed_events k err).
Proof.
  unfold on_failed_events, atClose_events.
  destruct err, (failed (shutdown_err k)), (failed (close_err k)); simpl;
    repeat (constructor; [intros; discriminate|]); constructor.
Qed.

(** In one run of the request handling loop the handler is called at least
    once and at most as many times as the view has bytes (once for an empty
    view), whatever it answers; and every view it is given is a tail of
    [reqBuffer_], no longer than the view the loop was entered with. *)
Theorem requestHandling_calls_bounded s off :
  exists evs,
    trace (requestHandling s off).1 = trace s ++ evs /\
    1 <= handle_calls evs <= Nat.max 1 (length (reqBuffer_ s) - off) /\
    Forall (fun e => forall v st n,
                e = HandleCall v st n ->
                exists k, off <= k /\ v = drop k (reqBuffer_ s)) evs.
Proof.
  remember (length (reqBuffer_ s) - off) as m eqn:Hm. revert s off Hm.
  induction m as [m IH] using lt_wf_ind. intros s off Hm.
  rewrite requestHandling_turn.
  destruct (handle (reqHandler_ s) (drop off (reqBuffer_ s)) 0) as [h' [[err out] n]].
  cbv zeta.
  assert (Hcall : forall v st k, HandleCall (drop off (reqBuffer_ s)) err n = HandleCall v st k ->
                                 exists j, off <= j /\ v = drop j (reqBuffer_ s)).
  { intros v st k [= <- _ _]. exists off. auto. }
  destruct (failed err).
  - destruct (decide (err = PartialData)).
    + exists [HandleCall (drop off (reqBuffer_ s)) err n;
              Log WARNING "partial data in request: %1.3fKb"].
      split; [simpl; now rewrite <- app_assoc|]. split; [unfold handle_calls; simpl; lia|].
      constructor; [exact Hcall|]. constructor; [intros; discriminate|constructor].
    + exists ([HandleCall (drop off (reqBuffer_ s)) err n] ++ on_failed_events (socket_ s) err).
      rewrite on_failed_closed_form.
      split; [simpl; now rewrite <- app_assoc|].
      split; [rewrite handle_calls_app, handle_calls_on_failed; unfold handle_calls; simpl; lia|].
      apply Forall_app. split; [constructor; [exact Hcall|constructor]|].
      apply no_view_on_failed.
  - destruct (whole_view_dec n (length (drop off (reqBuffer_ s)))) as [Hw|Hadv].
    + exists [HandleCall (drop off (reqBuffer_ s)) err n].
      split; [reflexivity|]. split; [unfold handle_calls; simpl; lia|].
      constructor; [exact Hcall|constructor].
    + rewrite length_drop in Hadv.
      destruct (IH (length (reqBuffer_ s) - (off + n)) ltac:(lia)
                   (handled s off h' err out n) (off + n) eq_refl)
        as (evs & Ht & Hb & Hv).
      exists (HandleCall (drop off (reqBuffer_ s)) err n :: evs).
      split; [rewrite Ht; simpl; now rewrite <- app_assoc|].
      split.
      { change (HandleCall (drop off (reqBuffer_ s)) err n :: evs)
          with ([HandleCall (drop off (reqBuffer_ s)) err n] ++ evs).
        rewrite handle_calls_app. simpl in Hb. unfold handle_calls at 1 3. simpl. lia. }
      constructor; [exact Hcall|].
      eapply Forall_impl; [exact Hv|]. intros e He v st k Heq.
      destruct (He v st k Heq) as (j & Hj & ->). exists j. split; [lia|reflexivity].
Qed.

End PassLength.

(** ** The further properties at work *)

(** an echo session that echoes a line, has its write taken and reads on *)
Lemma session_io_discipline_witness :
  let inputs := [ReadDone (b "a" ++ [NL]) Success; WriteDone 2 Success;
                 ReadDone (b "x") Success] in
  let s := default echo_started (session_run echo_started inputs) in
  start (new_session good_socket tt) = inr echo_started /\
  session_run echo_started inputs = Some s /\
  Forall nonempty_write (trace s) /\
  (pending s = Some OpRead -> resBuffer_ s = []).
Proof.
  intros inputs s.
  assert (Hstart : start (new_session good_socket tt) = inr echo_started) by reflexivity.
  assert (Hrun : session_run echo_started inputs = Some s) by (vm_compute; reflexivity).
  split; [exact Hstart|]. split; [exact Hrun|].
  destruct (session_io_discipline good_socket tt echo_started inputs s Hstart Hrun)
    as (_ & Hn & Hrd & _).
  split; [exact Hn|exact Hrd].
Defined.

(** the same run: what is kept is a tail of "a\nx" *)
Lemma inbound_buffer_is_tail_of_received_witness :
  let inputs := [ReadDone (b "a" ++ [NL]) Success; WriteDone 2 Success;
                 ReadDone (b "x") Success] in
  let s := default echo_started (session_run echo_started inputs) in
  reqBuffer_ echo_started = [] /\
  session_run echo_started inputs = Some s /\
  exists k, reqBuffer_ s = drop k (received inputs).
Proof.
  intros inputs s.
  assert (Hq : reqBuffer_ echo_started = []) by reflexivity.
  assert (Hrun : session_run echo_started inputs = Some s) by (vm_compute; reflexivity).
  split; [exact Hq|]. split; [exact Hrun|].
  exact (inbound_buffer_is_tail_of_received echo_started inputs s Hq Hrun).
Defined.

(** the peer of an echo session closes the connection *)
Lemma transport_error_ends_session_witness :
  failed Eof = true /\
  pending echo_started = Some OpRead /\
  forall data,
    session_step echo_started (ReadDone data Eof) =
    Some (mkSession (set_open false (socket_ echo_started)) (coro echo_started) None
                    (atSessionClose (reqHandler_ echo_started))
                    (reqBuffer_ echo_started ++ data) (resBuffer_ echo_started)
                    (trace echo_started ++ on_failed_events (socket_ echo_started) Eof)).
Proof.
  assert (Hf : failed Eof = true) by reflexivity.
  assert (Hp : pending echo_started = Some OpRead) by reflexivity.
  split; [exact Hf|]. split; [exact Hp|].
  destruct (transport_error_ends_session echo_started Eof Hf) as (Hrd & _).
  exact (Hrd Hp).
Defined.

(** an echo session waiting for its first read is closed by the server *)
Lemma close_then_cancelled_completion_witness :
  under_way echo_started /\
  is_open (socket_ (close echo_started)) = true /\
  exists i s',
    session_run echo_started [CloseCall; i] = Some s' /\ over s'.
Proof.
  assert (Hu : under_way echo_started).
  { unfold under_way. split; [reflexivity|]. split; [left; split; reflexivity|reflexivity]. }
  split; [exact Hu|].
  destruct (close_then_cancelled_completion echo_started Hu)
    as (Ho & _ & _ & i & s' & _ & Hrun & Hov & _).
  split; [exact Ho|]. exists i, s'. split; [exact Hrun|exact Hov].
Defined.

(** the echo server accepts its first connection *)
Lemma accept_adds_started_session_witness :
  accepting echo_server = true /\
  accept_coro echo_server = AcceptYield /\
  remote_endpoint good_socket = inr "127.0.0.1:50000"%string /\
  (makeRequestHandler (reqHandlerFactory_ echo_server)).2 = inr tt /\
  exists s_new srv',
    start (new_session good_socket tt) = inr s_new /\
    server_step echo_server (AcceptDone Success good_socket) = Some srv' /\
    heap srv' = [s_new] /\ sessions_ srv' = [0].
Proof.
  assert (Ha : accepting echo_server = true) by reflexivity.
  assert (Hc : accept_coro echo_server = AcceptYield) by reflexivity.
  assert (Hre : remote_endpoint good_socket = inr "127.0.0.1:50000"%string) by reflexivity.
  assert (Hmk : (makeRequestHandler (reqHandlerFactory_ echo_server)).2 = inr tt)
    by reflexivity.
  repeat (split; [assumption|]).
  destruct (accept_adds_started_session echo_server good_socket _ tt Ha Hc Hre Hmk)
    as (s_new & srv' & Hstart & Hstep & Hheap & Hsess & _).
  exists s_new, srv'. split; [exact Hstart|]. split; [exact Hstep|].
  split; [exact Hheap|exact Hsess].
Defined.

(** the echo server accepts a connection whose peer is gone already *)
Lemma failed_accept_handling_adds_nothing_witness :
  accepting echo_server = true /\
  accept_coro echo_server = AcceptYield /\
  exists srv',
    server_step echo_server (AcceptDone Success unresolved_socket) = Some srv' /\
    heap srv' = heap echo_server /\ accepting srv' = true.
Proof.
  assert (Ha : accepting echo_server = true) by reflexivity.
  assert (Hc : accept_coro echo_server = AcceptYield) by reflexivity.
  split; [exact Ha|]. split; [exact Hc|].
  destruct (failed_accept_handling_adds_nothing echo_server unresolved_socket
              (Exception "Transport endpoint is not connected") Ha Hc ltac:(reflexivity))
    as (srv' & Hstep & Hheap & _ & _ & Hacc).
  exists srv'. split; [exact Hstep|]. split; [exact Hheap|exact Hacc].
Defined.


(** the same server: the stop, then the accept coming back as cancelled *)
Lemma stop_ends_accept_loop_witness :
  accepting picky_server = true /\
  exists srv',
    server_run picky_server [StopCall; AcceptDone OperationAborted unresolved_socket]
      = Some srv' /\
    accepting srv' = false /\
    forall err socket', server_step srv' (AcceptDone err socket') = None.
Proof.
  assert (Ha : accepting picky_server = true) by reflexivity.
  split; [exact Ha|].
  destruct (stop_ends_accept_loop picky_server unresolved_socket Ha)
    as (srv' & Hrun & Hacc & Hnone & _).
  exists srv'. split; [exact Hrun|]. split; [exact Hacc|exact Hnone].
Defined.

(** the same server: the stop, then the read of its session coming back as
    cancelled *)
Lemma stop_then_cancelled_session_is_over_witness :
  NoDup (sessions_ picky_server) /\
  heap picky_server !! 0 = Some picky_started /\
  under_way picky_started /\
  exists i srv' s',
    server_run picky_server [StopCall; SessionDone 0 i] = Some srv' /\
    heap srv' !! 0 = Some s' /\ over s'.
Proof.
  assert (Hnd : NoDup (sessions_ picky_server)).
  { change (sessions_ picky_server) with [0]. apply NoDup_singleton. }
  assert (Hp : heap picky_server !! 0 = Some picky_started) by reflexivity.
  assert (Hu : under_way picky_started).
  { unfold under_way. split; [reflexivity|]. split; [left; split; reflexivity|reflexivity]. }
  repeat (split; [assumption|]).
  destruct (stop_then_cancelled_session_is_over picky_server 0 picky_started Hnd Hp Hu)
    as (i & srv' & s' & _ & Hrun & Hs' & Hov & _).
  exists i, srv', s'. split; [exact Hrun|]. split; [exact Hs'|exact Hov].
Defined.

(** two connections accepted by the echo server *)
Lemma live_set_points_to_sessions_witness :
  let inputs := [AcceptDone Success good_socket; AcceptDone Success good_socket] in
  let srv := default echo_server (server_run (asyncRun tt) inputs) in
  server_run (asyncRun tt) inputs = Some srv /\
  NoDup (sessions_ srv) /\
  forall p, p ∈ sessions_ srv -> is_Some (heap srv !! p).
Proof.
  intros inputs srv.
  assert (Hrun : server_run (asyncRun tt) inputs = Some srv) by (vm_compute; reflexivity).
  split; [exact Hrun|].
  exact (live_set_points_to_sessions tt inputs srv Hrun).
Defined.

(** two connections accepted, the first closed by its peer, then the stop *)
Lemma every_session_of_a_server_is_staged_witness :
  let inputs := [AcceptDone Success good_socket; AcceptDone Success good_socket;
                 SessionDone 0 (ReadDone [] Eof); StopCall] in
  let srv := default echo_server (server_run (asyncRun tt) inputs) in
  let s := default echo_started (heap srv !! 0) in
  Forall accepted_open inputs /\
  server_run (asyncRun tt) inputs = Some srv /\
  heap srv !! 0 = Some s /\
  lifecycle_trace (trace s) = [LStart; LClose; LShutdown; LSocketClose].
Proof.
  intros inputs srv s.
  assert (Hin : Forall accepted_open inputs) by (repeat constructor).
  assert (Hrun : server_run (asyncRun tt) inputs = Some srv) by (vm_compute; reflexivity).
  assert (Hs : heap srv !! 0 = Some s) by (vm_compute; reflexivity).
  split; [exact Hin|]. split; [exact Hrun|]. split; [exact Hs|].
  destruct (every_session_of_a_server_is_staged tt inputs srv 0 s Hin Hrun Hs)
    as [(Ho & _)|(_ & _ & Ht)].
  - vm_compute in Ho. discriminate Ho.
  - exact Ht.
Defined.

(** the endpoint "127.0.0.1:8080" on a system that lets the acceptor listen *)
Lemma build_tcp_reaches_listen_witness :
  let bld := Builder.mkBuilder (Some tt) Builder.Tcp (b "127.0.0.1:8080") in
  Builder.protocol_ bld = Builder.Tcp /\
  Builder.factory_ bld = Some tt /\
  host_port_shape (Builder.endpoint_ bld) (b "127.0.0.1") (b "8080") /\
  loopback_only (b "127.0.0.1") = Some tt /\
  Builder.build (H := unit) loopback_only (fun _ => None) bld =
    Builder.Built (Builder.TcpEndpoint tt 8080%N, new_server tt).
Proof.
  intros bld.
  assert (Hshape : host_port_shape (Builder.endpoint_ bld) (b "127.0.0.1") (b "8080")).
  { unfold host_port_shape. split; [reflexivity|]. split; [discriminate|].
    split; [repeat (constructor; [discriminate|]); constructor|].
    split; [simpl; lia|]. repeat (constructor; [reflexivity|]). constructor. }
  assert (Ha : loopback_only (b "127.0.0.1") = Some tt) by reflexivity.
  split; [reflexivity|]. split; [reflexivity|]. split; [exact Hshape|]. split; [exact Ha|].
  destruct (build_tcp_reaches_listen loopback_only (fun _ => None) (H := unit) bld tt
              (b "127.0.0.1") (b "8080") tt ltac:(reflexivity) ltac:(reflexivity)
              Hshape Ha) as (Hb & _).
  exact Hb.
Defined.

(** an IPv6 loopback literal with a port *)
Lemma build_tcp_needs_one_colon_witness :
  let bld := Builder.mkBuilder (Some tt) Builder.Tcp (b "::1:8080") in
  Builder.protocol_ bld = Builder.Tcp /\
  Builder.factory_ bld <> None /\
  length (filter (fun c => c = ":"%char) (Builder.endpoint_ bld)) <> 1 /\
  Builder.build (H := unit) loopback_only (fun _ => None) bld =
    Builder.ThrowInvalidArgument "invalid host or port".
Proof.
  intros bld.
  assert (Hf : Builder.factory_ bld <> None) by discriminate.
  assert (Hc : length (filter (fun c => c = ":"%char) (Builder.endpoint_ bld)) <> 1)
    by (vm_compute; discriminate).
  split; [reflexivity|]. split; [exact Hf|]. split; [exact Hc|].
  exact (build_tcp_needs_one_colon loopback_only (fun _ => None) (H := unit) bld
           ltac:(reflexivity) Hf Hc).
Defined.
